(** * The Salaryman: the per-frame simulation of [main.js] and of its
    simplified variant, embedded and verified.

    Number model.  Positions, velocities, elapsed times and timers are
    JavaScript numbers; they are embedded as exact rationals [Q], so the
    statements below are about the arithmetic the program writes down, not
    about binary64 rounding.  The message countdown is the exception:
    there the rounding decides on which tick a message leaves the feed, so
    [showMessage] and [updateMessages] are embedded a second time over
    binary64 numbers (module [Feed64]), and the expiry of messages is
    settled there.
    The two counters [burnout] and [credits] only ever receive the integer
    increments 25 and 20 from 0 and are kept in [Z].  The canvas size
    ([WIDTH], [HEIGHT]) comes from the host page and is a parameter of
    every function that reads it. *)

From Stdlib Require Import QArith ZArith List String Bool Lia Lqa DecimalString.
From Stdlib Require Import Qround.
From Stdlib Require PrimFloat FloatOps SpecFloat.
Import ListNotations.

Open Scope Q_scope.

(** ** JavaScript comparisons on numbers *)

Definition Qltb (a b : Q) : bool := negb (Qle_bool b a).
Definition Qgtb (a b : Q) : bool := Qltb b a.

Infix "<?" := Qltb (at level 70, no associativity) : Q_scope.
Infix ">?" := Qgtb (at level 70, no associativity) : Q_scope.
Infix "<=?" := Qle_bool (at level 70, no associativity) : Q_scope.

(** ** Geometry utility (shared verbatim by both source files) *)

Module Geometry.

(** Anything with [x], [y], [width] and [height] can be handed to
    [rectsOverlap]: the player, a pickup, the drone. *)
Class Rect (A : Type) := {
  x : A -> Q;
  y : A -> Q;
  width : A -> Q;
  height : A -> Q
}.

Record Box := mkBox { box_x : Q; box_y : Q; box_width : Q; box_height : Q }.

#[export] Instance Rect_Box : Rect Box :=
  {| x := box_x; y := box_y; width := box_width; height := box_height |}.

Definition rectsOverlap {A B : Type} `{Rect A} `{Rect B} (a : A) (b : B) : bool :=
  negb (
    (x a + width a <? x b) ||
    (x a >? x b + width b) ||
    (y a + height a <? y b) ||
    (y a >? y b + height b)
  ).

(** A well-formed box has non-negative extents. *)
Definition wellFormed {A : Type} `{Rect A} (a : A) : Prop :=
  0 <= width a /\ 0 <= height a.

(** The vertical (resp. horizontal) extents of [a] and [b] share a point. *)
Definition vIntersect {A B : Type} `{Rect A} `{Rect B} (a : A) (b : B) : Prop :=
  y a <= y b + height b /\ y b <= y a + height a.
Definition hIntersect {A B : Type} `{Rect A} `{Rect B} (a : A) (b : B) : Prop :=
  x a <= x b + width b /\ x b <= x a + width a.

(** Exact edge contact: one box ends where the other begins along one
    axis, while their extents along the other axis intersect. *)
Definition edgeContact {A B : Type} `{Rect A} `{Rect B} (a : A) (b : B) : Prop :=
  (x a + width a == x b /\ vIntersect a b) \/
  (x b + width b == x a /\ vIntersect a b) \/
  (y a + height a == y b /\ hIntersect a b) \/
  (y b + height b == y a /\ hIntersect a b).

End Geometry.

Import Geometry.

(** ** Entity records (the object literals of both source files) *)

Module Entities.

Record Keys := mkKeys { left : bool; right : bool; jump : bool }.

Record Player := mkPlayer {
  p_x : Q; p_y : Q; p_width : Q; p_height : Q;
  p_vx : Q; p_vy : Q; p_speed : Q; p_jumpForce : Q;
  p_onGround : bool
}.

Record Pickup := mkPickup {
  k_x : Q; k_y : Q; k_width : Q; k_height : Q;
  collected : bool
}.

#[export] Instance Rect_Player : Rect Player :=
  {| x := p_x; y := p_y; width := p_width; height := p_height |}.
#[export] Instance Rect_Pickup : Rect Pickup :=
  {| x := k_x; y := k_y; width := k_width; height := k_height |}.

(** Field assignments [player.f = v]. *)
Definition set_p_x (v : Q) (p : Player) : Player :=
  mkPlayer v (p_y p) (p_width p) (p_height p) (p_vx p) (p_vy p)
           (p_speed p) (p_jumpForce p) (p_onGround p).
Definition set_p_y (v : Q) (p : Player) : Player :=
  mkPlayer (p_x p) v (p_width p) (p_height p) (p_vx p) (p_vy p)
           (p_speed p) (p_jumpForce p) (p_onGround p).
Definition set_p_vx (v : Q) (p : Player) : Player :=
  mkPlayer (p_x p) (p_y p) (p_width p) (p_height p) v (p_vy p)
           (p_speed p) (p_jumpForce p) (p_onGround p).
Definition set_p_vy (v : Q) (p : Player) : Player :=
  mkPlayer (p_x p) (p_y p) (p_width p) (p_height p) (p_vx p) v
           (p_speed p) (p_jumpForce p) (p_onGround p).
Definition set_p_onGround (v : bool) (p : Player) : Player :=
  mkPlayer (p_x p) (p_y p) (p_width p) (p_height p) (p_vx p) (p_vy p)
           (p_speed p) (p_jumpForce p) v.

Definition set_collected (v : bool) (k : Pickup) : Pickup :=
  mkPickup (k_x k) (k_y k) (k_width k) (k_height k) v.

(** The host canvas; [WIDTH] and [HEIGHT] are read from it once. *)
Record Canvas := mkCanvas { canvas_width : Q; canvas_height : Q }.
Definition WIDTH (canvas : Canvas) : Q := canvas_width canvas.
Definition HEIGHT (canvas : Canvas) : Q := canvas_height canvas.

End Entities.

Import Entities.

(** ** main.js: the full simulation *)

Module Main.

Definition world_width : Q := 3000.
Definition gravity : Q := 2000.
Definition groundHeight : Q := 80.
Definition burnoutMax : Z := 100.
Definition rent : Z := 120.

Record HRDrone := mkHRDrone {
  d_x : Q; d_y : Q; d_width : Q; d_height : Q;
  d_vx : Q; leftBound : Q; rightBound : Q
}.

#[export] Instance Rect_HRDrone : Rect HRDrone :=
  {| x := d_x; y := d_y; width := d_width; height := d_height |}.

Definition set_d_x (v : Q) (d : HRDrone) : HRDrone :=
  mkHRDrone v (d_y d) (d_width d) (d_height d) (d_vx d)
            (leftBound d) (rightBound d).
Definition set_d_vx (v : Q) (d : HRDrone) : HRDrone :=
  mkHRDrone (d_x d) (d_y d) (d_width d) (d_height d) v
            (leftBound d) (rightBound d).

Record Message := mkMessage { text : string; time : Q }.

Definition set_time (v : Q) (m : Message) : Message := mkMessage (text m) v.

(** The top-level mutable bindings of the script, as one state. *)
Record Game := mkGame {
  player : Player;
  coffee : Pickup;
  moneyPickups : list Pickup;
  hrDrone : HRDrone;
  burnout : Z;
  invincibleTimer : Q;
  credits : Z;
  messages : list Message;
  gameOver : bool;
  gameOverReason : string;
  cameraX : Q
}.

Definition set_player (v : Player) (g : Game) : Game :=
  mkGame v (coffee g) (moneyPickups g) (hrDrone g) (burnout g)
         (invincibleTimer g) (credits g) (messages g) (gameOver g)
         (gameOverReason g) (cameraX g).
Definition set_coffee (v : Pickup) (g : Game) : Game :=
  mkGame (player g) v (moneyPickups g) (hrDrone g) (burnout g)
         (invincibleTimer g) (credits g) (messages g) (gameOver g)
         (gameOverReason g) (cameraX g).
Definition set_moneyPickups (v : list Pickup) (g : Game) : Game :=
  mkGame (player g) (coffee g) v (hrDrone g) (burnout g)
         (invincibleTimer g) (credits g) (messages g) (gameOver g)
         (gameOverReason g) (cameraX g).
Definition set_hrDrone (v : HRDrone) (g : Game) : Game :=
  mkGame (player g) (coffee g) (moneyPickups g) v (burnout g)
         (invincibleTimer g) (credits g) (messages g) (gameOver g)
         (gameOverReason g) (cameraX g).
Definition set_burnout (v : Z) (g : Game) : Game :=
  mkGame (player g) (coffee g) (moneyPickups g) (hrDrone g) v
         (invincibleTimer g) (credits g) (messages g) (gameOver g)
         (gameOverReason g) (cameraX g).
Definition set_invincibleTimer (v : Q) (g : Game) : Game :=
  mkGame (player g) (coffee g) (moneyPickups g) (hrDrone g) (burnout g)
         v (credits g) (messages g) (gameOver g)
         (gameOverReason g) (cameraX g).
Definition set_credits (v : Z) (g : Game) : Game :=
  mkGame (player g) (coffee g) (moneyPickups g) (hrDrone g) (burnout g)
         (invincibleTimer g) v (messages g) (gameOver g)
         (gameOverReason g) (cameraX g).
Definition set_messages (v : list Message) (g : Game) : Game :=
  mkGame (player g) (coffee g) (moneyPickups g) (hrDrone g) (burnout g)
         (invincibleTimer g) (credits g) v (gameOver g)
         (gameOverReason g) (cameraX g).
Definition set_gameOver (v : bool) (g : Game) : Game :=
  mkGame (player g) (coffee g) (moneyPickups g) (hrDrone g) (burnout g)
         (invincibleTimer g) (credits g) (messages g) v
         (gameOverReason g) (cameraX g).
Definition set_gameOverReason (v : string) (g : Game) : Game :=
  mkGame (player g) (coffee g) (moneyPickups g) (hrDrone g) (burnout g)
         (invincibleTimer g) (credits g) (messages g) (gameOver g)
         v (cameraX g).
Definition set_cameraX (v : Q) (g : Game) : Game :=
  mkGame (player g) (coffee g) (moneyPickups g) (hrDrone g) (burnout g)
         (invincibleTimer g) (credits g) (messages g) (gameOver g)
         (gameOverReason g) v.

(** The object literals the script starts from. *)
Definition initialPlayer (canvas : Canvas) : Player :=
  mkPlayer 200 (HEIGHT canvas - groundHeight - 96) 64 96 0 0 350 (-750) true.

Definition initialCoffee (canvas : Canvas) : Pickup :=
  mkPickup 450 (HEIGHT canvas - groundHeight - 48) 32 48 false.

Definition initialMoneyPickups (canvas : Canvas) : list Pickup :=
  [ mkPickup 700 (HEIGHT canvas - groundHeight - 40) 32 32 false;
    mkPickup 1200 (HEIGHT canvas - groundHeight - 40) 32 32 false;
    mkPickup 1800 (HEIGHT canvas - groundHeight - 40) 32 32 false ].

Definition initialHRDrone (canvas : Canvas) : HRDrone :=
  mkHRDrone 1000 (HEIGHT canvas - groundHeight - 160) 48 48 120 950 1250.

Definition initialGame (canvas : Canvas) : Game :=
  mkGame (initialPlayer canvas) (initialCoffee canvas)
         (initialMoneyPickups canvas) (initialHRDrone canvas)
         0%Z 0 0%Z [] false EmptyString 0.

(** [messages.push({ text, time: 7 })] *)
Definition showMessage (txt : string) (g : Game) : Game :=
  set_messages (messages g ++ [mkMessage txt 7]) g.

(** The game when the first frame is requested: the assets are loaded and
    the greeting is posted. *)
Definition startGame (canvas : Canvas) : Game :=
  showMessage "Morning commute: try not to burn out before the office."
    (initialGame canvas).

(** Template-literal rendering of an integer counter. *)
Definition showNumber (n : Z) : string := NilZero.string_of_int (Z.to_int n).

(** The body of [updatePlayer] below its game-over guard, on the
    [player] object. *)
Definition movePlayer (canvas : Canvas) (dt : Q) (keys : Keys) (p : Player) : Player :=
  (* Horizontal movement *)
  let p := set_p_vx 0 p in
  let p := if left keys then set_p_vx (- p_speed p) p else p in
  let p := if right keys then set_p_vx (p_speed p) p else p in
  (* Jumping *)
  let p := if jump keys && p_onGround p
           then set_p_onGround false (set_p_vy (p_jumpForce p) p) else p in
  (* Apply gravity *)
  let p := set_p_vy (p_vy p + gravity * dt) p in
  (* Apply velocities *)
  let p := set_p_x (p_x p + p_vx p * dt) p in
  let p := set_p_y (p_y p + p_vy p * dt) p in
  (* Clamp to world bounds *)
  let p := if p_x p <? 0 then set_p_x 0 p else p in
  let p := if p_x p + p_width p >? world_width
           then set_p_x (world_width - p_width p) p else p in
  (* Ground collision *)
  let floorY := HEIGHT canvas - groundHeight - p_height p in
  let p := if p_y p >? floorY
           then set_p_onGround true (set_p_vy 0 (set_p_y floorY p)) else p in
  p.

Definition updatePlayer (canvas : Canvas) (dt : Q) (keys : Keys) (g : Game) : Game :=
  if gameOver g then g else
  set_player (movePlayer canvas dt keys (player g)) g.

Definition updateCamera (canvas : Canvas) (g : Game) : Game :=
  let c := p_x (player g) + p_width (player g) / 2 - WIDTH canvas / 2 in
  let c := if c <? 0 then 0 else c in
  let c := if c >? world_width - WIDTH canvas
           then world_width - WIDTH canvas else c in
  set_cameraX c g.

Definition triggerGameOver (reason : string) (g : Game) : Game :=
  let g := set_gameOver true g in
  let g := set_gameOverReason reason g in
  showMessage "Game over. Refresh the page to try again." g.

(** The motion half of [updateHRDrone]: advance, then bounce at either
    patrol bound. *)
Definition patrol (dt : Q) (d : HRDrone) : HRDrone :=
  let d := set_d_x (d_x d + d_vx d * dt) d in
  let d := if d_x d <? leftBound d
           then set_d_vx (d_vx d * -1) (set_d_x (leftBound d) d) else d in
  let d := if d_x d + d_width d >? rightBound d
           then set_d_vx (d_vx d * -1) (set_d_x (rightBound d - d_width d) d)
           else d in
  d.

(** The contact half of [updateHRDrone]. *)
Definition contactDamage (g : Game) : Game :=
  if negb (gameOver g) && rectsOverlap (player g) (hrDrone g) then
    if invincibleTimer g <=? 0 then
      let g := set_burnout (burnout g + 25)%Z g in
      let g := set_invincibleTimer 1.0 g in
      let g := showMessage "HR Drone: unauthorized happiness detected." g in
      if (burnout g >=? burnoutMax)%Z then
        let g := set_burnout burnoutMax g in
        triggerGameOver "Burnout: you finally quit your job." g
      else g
    else g
  else g.

Definition updateHRDrone (dt : Q) (g : Game) : Game :=
  if gameOver g then g else
  let g := set_hrDrone (patrol dt (hrDrone g)) g in
  (* Collision with player *)
  contactDamage g.

(** The [for (const m of moneyPickups)] loop, threading [credits] and the
    message list through the iterations. *)
Fixpoint collectMoney (p : Player) (ms : list Pickup) (cr : Z)
         (msgs : list Message) : list Pickup * Z * list Message :=
  match ms with
  | [] => ([], cr, msgs)
  | m :: rest =>
      if negb (collected m) && rectsOverlap p m then
        let cr' := (cr + 20)%Z in
        let txt := String.append "+20 credits (total: "
                     (String.append (showNumber cr') ")") in
        let '(rest', cr'', msgs') :=
          collectMoney p rest cr' (msgs ++ [mkMessage txt 7]) in
        (set_collected true m :: rest', cr'', msgs')
      else
        let '(rest', cr'', msgs') := collectMoney p rest cr msgs in
        (m :: rest', cr'', msgs')
  end.

Definition updatePickups (dt : Q) (g : Game) : Game :=
  (* coffee *)
  let g := if negb (collected (coffee g)) && rectsOverlap (player g) (coffee g)
           then showMessage "Coffee acquired: +5 morale (pure placebo)."
                  (set_coffee (set_collected true (coffee g)) g)
           else g in
  (* money *)
  let '(ms, cr, msgs) :=
    collectMoney (player g) (moneyPickups g) (credits g) (messages g) in
  set_messages msgs (set_credits cr (set_moneyPickups ms g)).

(** [messages.splice(i, 1)] *)
Fixpoint splice1 (i : nat) (l : list Message) : list Message :=
  match i, l with
  | _, [] => []
  | O, _ :: t => t
  | S j, h :: t => h :: splice1 j t
  end.

(** The backward scan [for (let i = n - 1; i >= 0; i--)], entered with
    [n = messages.length]. *)
Fixpoint removeExpired (n : nat) (l : list Message) : list Message :=
  match n with
  | O => l
  | S i =>
      removeExpired i
        (match nth_error l i with
         | Some m => if time m <=? 0 then splice1 i l else l
         | None => l
         end)
  end.

Definition updateMessages (dt : Q) (g : Game) : Game :=
  let msgs := map (fun msg => set_time (time msg - dt) msg) (messages g) in
  (* Remove expired *)
  set_messages (removeExpired (List.length msgs) msgs) g.

Definition updateTimers (dt : Q) (g : Game) : Game :=
  if invincibleTimer g >? 0
  then set_invincibleTimer (invincibleTimer g - dt) g else g.

Definition update (canvas : Canvas) (dt : Q) (keys : Keys) (g : Game) : Game :=
  let g :=
    if negb (gameOver g) then
      let g := updatePlayer canvas dt keys g in
      let g := updateHRDrone dt g in
      let g := updatePickups dt g in
      let g := updateTimers dt g in
      updateCamera canvas g
    else
      (* Even when game over, keep camera on player *)
      updateCamera canvas g in
  updateMessages dt g.

(** A run of the frame loop: one [update] per (dt, keys) sample. *)
Definition Tick : Type := Q * Keys.

Definition run (canvas : Canvas) (ticks : list Tick) (g : Game) : Game :=
  fold_left (fun g t => update canvas (fst t) (snd t) g) ticks g.

End Main.

(** ** The simplified variant (second source file) *)

Module Simple.

Definition gravity : Q := 2000.
Definition groundHeight : Q := 80.

Record Game := mkGame { player : Player; coffee : Pickup }.

Definition initialGame (canvas : Canvas) : Game :=
  mkGame
    (mkPlayer (WIDTH canvas / 2 - 32) (HEIGHT canvas - groundHeight - 96)
              64 96 0 0 350 (-750) true)
    (mkPickup (WIDTH canvas * 0.75) (HEIGHT canvas - groundHeight - 48)
              32 48 false).

(** The player part of [update], on the [player] object. *)
Definition movePlayer (canvas : Canvas) (dt : Q) (keys : Keys) (p : Player) : Player :=
  (* Horizontal movement *)
  let p := set_p_vx 0 p in
  let p := if left keys then set_p_vx (- p_speed p) p else p in
  let p := if right keys then set_p_vx (p_speed p) p else p in
  (* Jumping *)
  let p := if jump keys && p_onGround p
           then set_p_onGround false (set_p_vy (p_jumpForce p) p) else p in
  (* Apply gravity *)
  let p := set_p_vy (p_vy p + gravity * dt) p in
  (* Apply velocities *)
  let p := set_p_x (p_x p + p_vx p * dt) p in
  let p := set_p_y (p_y p + p_vy p * dt) p in
  (* Ground collision *)
  let floorY := HEIGHT canvas - groundHeight - p_height p in
  let p := if p_y p >? floorY
           then set_p_onGround true (set_p_vy 0 (set_p_y floorY p)) else p in
  (* Keep player inside screen horizontally *)
  let p := if p_x p <? 0 then set_p_x 0 p else p in
  let p := if p_x p + p_width p >? WIDTH canvas
           then set_p_x (WIDTH canvas - p_width p) p else p in
  p.

Definition update (canvas : Canvas) (dt : Q) (keys : Keys) (g : Game) : Game :=
  let p := movePlayer canvas dt keys (player g) in
  (* Coffee collision *)
  let c := coffee g in
  let c := if negb (collected c) && rectsOverlap p c
           then set_collected true c else c in
  mkGame p c.

End Simple.

(** ** Vocabulary of the properties of main.js *)

Module MainSpec.

Import Main.

(** Message feed: one tick ages every message by [dt] and keeps those
    whose remaining time is still positive. *)
Definition age (dt : Q) (m : Message) : Message := set_time (time m - dt) m.
Definition alive (m : Message) : bool := negb (time m <=? 0).
Definition decay (dt : Q) (l : list Message) : list Message :=
  filter alive (map (age dt) l).

(** What becomes of one message over consecutive ticks. *)
Fixpoint fate (dts : list Q) (m : Message) : option Message :=
  match dts with
  | [] => Some m
  | dt :: rest => if alive (age dt m) then fate rest (age dt m) else None
  end.

Definition survivors (dts : list Q) (l : list Message) : list Message :=
  flat_map (fun m => match fate dts m with Some m' => [m'] | None => [] end) l.

(** Cumulative elapsed time, and the countdown it leaves of [T]. *)
Definition elapsed (dts : list Q) : Q := fold_right Qplus 0 dts.
Definition remaining (dts : list Q) (T : Q) : Q := fold_left Qminus dts T.

(** The display duration [showMessage] gives every message. *)
Definition displayDuration : Q := 7.

(** Whether the boxes the drone's collision check sees on a tick from [g]
    (the moved player, the moved drone) overlap. *)
Definition contact (canvas : Canvas) (dt : Q) (keys : Keys) (g : Game) : bool :=
  rectsOverlap (player (updatePlayer canvas dt keys g)) (patrol dt (hrDrone g)).

(** Pickups: the test of [updatePickups] and its effect on one pickup. *)
Definition fires (p : Player) (m : Pickup) : bool :=
  negb (collected m) && rectsOverlap p m.
Definition collect (p : Player) (m : Pickup) : Pickup :=
  if fires p m then set_collected true m else m.
Definition hits (p : Player) (ms : list Pickup) : nat :=
  List.length (filter (fires p) ms).

Definition creditText (total : Z) : string :=
  String.append "+20 credits (total: " (String.append (showNumber total) ")").

(** The messages [n] successive credit pickups post, from a total [cr]. *)
Fixpoint creditMessages (cr : Z) (n : nat) : list Message :=
  match n with
  | O => []
  | S k => mkMessage (creditText (cr + 20)) 7 :: creditMessages (cr + 20) k
  end.

Definition coffeeMessages (p : Player) (c : Pickup) : list Message :=
  if fires p c
  then [mkMessage "Coffee acquired: +5 morale (pure placebo)." 7] else [].

(** Bounds. *)
Definition playerInBounds (p : Player) : Prop :=
  0 <= p_x p /\ p_x p <= world_width - p_width p.
Definition droneInBounds (d : HRDrone) : Prop :=
  leftBound d <= d_x d /\ d_x d <= rightBound d - d_width d.
Definition roomy (g : Game) : Prop :=
  p_width (player g) <= world_width /\
  d_width (hrDrone g) <= rightBound (hrDrone g) - leftBound (hrDrone g).
Definition inBounds (g : Game) : Prop :=
  playerInBounds (player g) /\ droneInBounds (hrDrone g).

Definition floorY (canvas : Canvas) (p : Player) : Q :=
  HEIGHT canvas - groundHeight - p_height p.

(** The burnout counter and the game state agree: the game is over
    exactly when burnout sits at its maximum. *)
Definition burnoutConsistent (g : Game) : Prop :=
  if gameOver g then burnout g = burnoutMax else (burnout g < burnoutMax)%Z.

(** Whether the collision check of [updateHRDrone] applies damage. *)
Definition damaging (g : Game) : bool :=
  negb (gameOver g) && rectsOverlap (player g) (hrDrone g) &&
  (invincibleTimer g <=? 0).

(** A running tick, seen from the state the collision check works on. *)
Definition atCheck (canvas : Canvas) (dt : Q) (keys : Keys) (g : Game) : Game :=
  set_hrDrone (patrol dt (hrDrone g)) (updatePlayer canvas dt keys g).

(** The same game with [l] placed in front of its messages. *)
Definition prepend (l : list Message) (g : Game) : Game :=
  set_messages (l ++ messages g) g.

Definition decayAll (dts : list Q) (l : list Message) : list Message :=
  fold_left (fun l dt => decay dt l) dts l.

(** No uncollected pickup is left overlapping the player. *)
Definition settled (g : Game) : Prop :=
  fires (player g) (coffee g) = false /\
  Forall (fun m => fires (player g) m = false) (moneyPickups g).

End MainSpec.

(** ** Sample inputs (for the examples below) *)

Module Samples.

Import Main.

Definition canvas : Canvas := mkCanvas 960 540.
Definition narrowCanvas : Canvas := mkCanvas 800 540.

Definition noKeys : Keys := mkKeys false false false.
Definition leftKey : Keys := mkKeys true false false.
Definition rightKey : Keys := mkKeys false true false.
Definition bothKeys : Keys := mkKeys true true false.
Definition jumpKey : Keys := mkKeys false false true.

(** The game as the script starts it. *)
Definition start : Game := initialGame canvas.

(** The player standing just left of the coffee. *)
Definition nearCoffee : Game :=
  set_player (set_p_x 440 (player start)) start.

(** Game over, the player standing on the uncollected coffee. *)
Definition overOnCoffee : Game :=
  set_gameOver true (set_burnout 100
    (set_player (set_p_x 450 (player start)) start)).

(** Game over, the player standing on the first uncollected credit. *)
Definition overOnCredit : Game :=
  set_gameOver true (set_burnout 100
    (set_player (set_p_x 700 (player start)) start)).

(** The player on the floor inside the patrol range, with a slow drone
    flying at floor level through it. *)
Definition pinned : Game :=
  set_hrDrone (mkHRDrone 1000 (540 - 80 - 96) 48 48 20 950 1250)
    (set_player (set_p_x 1000 (player start)) start).

(** The same, three hits in. *)
Definition worn : Game := set_burnout 75 pinned.

End Samples.

(** ** main.js: input handlers, frame loop and what the draw functions
    hand to the canvas *)

Module Host.

Import Main.

Definition set_left (v : bool) (keys : Keys) : Keys :=
  mkKeys v (right keys) (jump keys).
Definition set_right (v : bool) (keys : Keys) : Keys :=
  mkKeys (left keys) v (jump keys).
Definition set_jump (v : bool) (keys : Keys) : Keys :=
  mkKeys (left keys) (right keys) v.

(** The ["keydown"] listener, on the [keys] object; [code] is [e.code]. *)
Definition keydown (code : string) (keys : Keys) : Keys :=
  let keys := if (code =? "ArrowLeft")%string || (code =? "KeyA")%string
              then set_left true keys else keys in
  let keys := if (code =? "ArrowRight")%string || (code =? "KeyD")%string
              then set_right true keys else keys in
  let keys := if (code =? "ArrowUp")%string || (code =? "Space")%string
                 || (code =? "KeyW")%string
              then set_jump true keys else keys in
  keys.

(** The ["keyup"] listener. *)
Definition keyup (code : string) (keys : Keys) : Keys :=
  let keys := if (code =? "ArrowLeft")%string || (code =? "KeyA")%string
              then set_left false keys else keys in
  let keys := if (code =? "ArrowRight")%string || (code =? "KeyD")%string
              then set_right false keys else keys in
  let keys := if (code =? "ArrowUp")%string || (code =? "Space")%string
                 || (code =? "KeyW")%string
              then set_jump false keys else keys in
  keys.

(** [setAction] of [setupMobileControls]; [action] is the button's
    [data-action]. *)
Definition setAction (action : string) (pressed : bool) (keys : Keys) : Keys :=
  if (action =? "left")%string then set_left pressed keys
  else if (action =? "right")%string then set_right pressed keys
  else if (action =? "jump")%string then set_jump pressed keys
  else keys.

(** [lastTime] and the simulation state, as [gameLoop] carries them from
    frame to frame. *)
Record Loop := mkLoop { lastTime : Q; game : Game }.

(** One [gameLoop(timestamp)] call, with the [keys] as the listeners left
    them; [!lastTime] holds of the number 0. *)
Definition gameLoop (canvas : Canvas) (timestamp : Q) (keys : Keys) (l : Loop) : Loop :=
  let lastTime := if Qeq_bool (lastTime l) 0 then timestamp else lastTime l in
  let dt := (timestamp - lastTime) / 1000 in
  let lastTime := timestamp in
  mkLoop lastTime (update canvas dt keys (game l)).

(** Successive animation frames. *)
Definition Frame : Type := Q * Keys.

Definition frames (canvas : Canvas) (fs : list Frame) (l : Loop) : Loop :=
  fold_left (fun l f => gameLoop canvas (fst f) (snd f) l) fs l.

(** The loop as [loadAssets().then] leaves it before the first frame. *)
Definition boot (canvas : Canvas) : Loop := mkLoop 0 (startGame canvas).

(** A [ctx.drawImage(images[key], x, y, width, height)] call. *)
Record Sprite := mkSprite {
  s_key : string; s_x : Q; s_y : Q; s_width : Q; s_height : Q
}.

(** Which keys of [images] hold a loaded image. *)
Definition Images : Type := string -> bool.

Definition drawPlayer (images : Images) (g : Game) : list Sprite :=
  if negb (images "playerIdle"%string) then [] else
  let screenX := p_x (player g) - cameraX g in
  [mkSprite "playerIdle" screenX (p_y (player g))
            (p_width (player g)) (p_height (player g))].

Definition drawCoffee (images : Images) (g : Game) : list Sprite :=
  if collected (coffee g) then [] else
  if negb (images "coffee"%string) then [] else
  let screenX := k_x (coffee g) - cameraX g in
  [mkSprite "coffee" screenX (k_y (coffee g))
            (k_width (coffee g)) (k_height (coffee g))].

(** The [for (const m of moneyPickups)] loop of [drawMoney]. *)
Fixpoint drawMoneyLoop (cam : Q) (ms : list Pickup) : list Sprite :=
  match ms with
  | [] => []
  | m :: rest =>
      if collected m then drawMoneyLoop cam rest
      else
        let screenX := k_x m - cam in
        mkSprite "credit" screenX (k_y m) (k_width m) (k_height m)
          :: drawMoneyLoop cam rest
  end.

Definition drawMoney (images : Images) (g : Game) : list Sprite :=
  if negb (images "credit"%string) then [] else
  drawMoneyLoop (cameraX g) (moneyPickups g).

(** [drawGround]: the tiling loop
    [for (worldX = startX; worldX < endX; worldX += tileWidth)], run for at
    most [fuel] iterations. *)
Fixpoint groundTiles (fuel : nat) (worldX endX tileWidth cam y : Q) : list Sprite :=
  match fuel with
  | O => []
  | S n =>
      if worldX <? endX then
        let screenX := worldX - cam in
        mkSprite "ground" screenX y tileWidth groundHeight
          :: groundTiles n (worldX + tileWidth) endX tileWidth cam y
      else []
  end.

(** [ground] is the width of [images.ground] when that image is loaded. *)
Definition drawGround (canvas : Canvas) (ground : option Q) (fuel : nat) (g : Game)
  : list Sprite :=
  match ground with
  | None => []
  | Some tileWidth =>
      let y := HEIGHT canvas - groundHeight in
      let startX := inject_Z (Qfloor (cameraX g / tileWidth)) * tileWidth in
      let endX := cameraX g + WIDTH canvas in
      groundTiles fuel startX endX tileWidth (cameraX g) y
  end.

(** [Math.min] on two numbers. *)
Definition Math_min (a b : Q) : Q := if b <? a then b else a.

(** [drawUI]: the width of the filled part of the burnout bar,
    [barWidth * ratio]. *)
Definition burnoutFill (g : Game) : Q :=
  let barWidth := 200 in
  let ratio := inject_Z (burnout g) / inject_Z burnoutMax in
  barWidth * ratio.

(** [drawUI]: the message loop; each row is the text, its alpha and its
    baseline [msgY]. *)
Fixpoint messageRows (msgY : Q) (msgs : list Message) : list (string * Q * Q) :=
  match msgs with
  | [] => []
  | msg :: rest =>
      let alpha := Math_min 1 (time msg / 2) in
      (text msg, alpha, msgY) :: messageRows (msgY + 30) rest
  end.

Definition drawMessages (g : Game) : list (string * Q * Q) :=
  let msgY := 90 in
  messageRows msgY (messages g).

End Host.

(** ** Vocabulary of the further properties *)

Module HostSpec.

Import Main MainSpec Host.

Inductive Intent := ILeft | IRight | IJump.

(** The intent a key code is bound to, if any. *)
Definition intentOf (code : string) : option Intent :=
  if (code =? "ArrowLeft")%string || (code =? "KeyA")%string then Some ILeft
  else if (code =? "ArrowRight")%string || (code =? "KeyD")%string then Some IRight
  else if (code =? "ArrowUp")%string || (code =? "Space")%string
          || (code =? "KeyW")%string then Some IJump
  else None.

Definition actionName (i : Intent) : string :=
  match i with ILeft => "left" | IRight => "right" | IJump => "jump" end.

Definition getIntent (i : Intent) (keys : Keys) : bool :=
  match i with ILeft => left keys | IRight => right keys | IJump => jump keys end.

(** The camera offset [updateCamera] computes for a player. *)
Definition cameraFor (canvas : Canvas) (p : Player) : Q :=
  let c := p_x p + p_width p / 2 - WIDTH canvas / 2 in
  let c := if c <? 0 then 0 else c in
  if c >? world_width - WIDTH canvas then world_width - WIDTH canvas else c.

Definition onScreen (canvas : Canvas) (s : Sprite) : Prop :=
  0 <= s_x s /\ s_x s + s_width s <= WIDTH canvas.

(** Equal up to sign. *)
Definition sameSpeed (a b : Q) : Prop := a == b \/ a == - b.

(** A grounded player rests on the floor line with no vertical velocity. *)
Definition grounded (canvas : Canvas) (p : Player) : Prop :=
  p_onGround p = true -> p_y p == floorY canvas p /\ p_vy p == 0.

Definition collectedCount (ms : list Pickup) : nat :=
  List.length (filter collected ms).

(** A pickup keeps its box, and its flag once set. *)
Definition keeps (m m' : Pickup) : Prop :=
  k_x m' = k_x m /\ k_y m' = k_y m /\
  k_width m' = k_width m /\ k_height m' = k_height m /\
  (collected m = true -> collected m' = true).



Definition greeting : string :=
  "Morning commute: try not to burn out before the office.".

Definition burnoutReason : string := "Burnout: you finally quit your job.".

(** Runs of the simplified variant. *)
Definition simpleRun (canvas : Canvas) (ticks : list Tick) (s : Simple.Game) : Simple.Game :=
  fold_left (fun s t => Simple.update canvas (fst t) (snd t) s) ticks s.

(** Enough iterations for the tiling loop of [drawGround] to run to its
    end on a canvas of this width. *)
Definition enoughTiles (canvas : Canvas) (tileWidth : Q) (fuel : nat) : Prop :=
  WIDTH canvas + tileWidth <= tileWidth * inject_Z (Z.of_nat fuel).

(** The sprite covers screen column [s]. *)
Definition covers (t : Sprite) (s : Q) : Prop :=
  s_x t <= s /\ s < s_x t + s_width t.

End HostSpec.

(** ** Further sample inputs *)

Module MoreSamples.

Import Main Host Samples.

Definition wideCanvas : Canvas := mkCanvas 4000 540.
Definition worldCanvas : Canvas := mkCanvas 3000 540.

(** The starting player lifted off the floor. *)
Definition airborne : Player :=
  set_p_onGround false (set_p_y 200 (player start)).

(** The pinned player one second into a grace window. *)
Definition graced : Game := set_invincibleTimer 1 pinned.

Definition allLoaded : Images := fun _ => true.


(** Frames spanning more than seven seconds. *)
Definition longFrames : list Frame :=
  [(1000, noKeys); (4000, noKeys); (8000, noKeys)].

End MoreSamples.

(** ** main.js: the message feed in binary64

    The countdown of a message is the one quantity of the program whose
    rounding decides what is shown: [showMessage] and [updateMessages] are
    embedded here a second time with [time] and [dt] as the binary64
    numbers they are (primitive floats, rounding to nearest even). *)

Module Feed64.

Import PrimFloat.

Record Message := mkMessage { text : string; time : float }.

Definition set_time (v : float) (m : Message) : Message := mkMessage (text m) v.

(** [messages.push({ text, time: 7 })] *)
Definition showMessage (txt : string) (messages : list Message) : list Message :=
  messages ++ [mkMessage txt 7%float].

(** [messages.splice(i, 1)] *)
Fixpoint splice1 (i : nat) (l : list Message) : list Message :=
  match i, l with
  | _, [] => []
  | O, _ :: t => t
  | S j, h :: t => h :: splice1 j t
  end.

(** The backward scan [for (let i = n - 1; i >= 0; i--)], entered with
    [n = messages.length]; [<=] is the comparison of binary64 numbers. *)
Fixpoint removeExpired (n : nat) (l : list Message) : list Message :=
  match n with
  | O => l
  | S i =>
      removeExpired i
        (match nth_error l i with
         | Some m => if (time m <=? 0)%float then splice1 i l else l
         | None => l
         end)
  end.

Definition updateMessages (dt : float) (messages : list Message) : list Message :=
  let msgs := map (fun msg => set_time (time msg - dt)%float msg) messages in
  (* Remove expired *)
  removeExpired (List.length msgs) msgs.

(** What happens to the feed: a component posts, or a tick ends. *)
Inductive FeedOp :=
| Post (txt : string)
| Tick (dt : float).

Definition feedStep (l : list Message) (op : FeedOp) : list Message :=
  match op with
  | Post txt => showMessage txt l
  | Tick dt => updateMessages dt l
  end.

Definition feed (ops : list FeedOp) (l : list Message) : list Message :=
  fold_left feedStep ops l.


End Feed64.

(** ** Vocabulary of the binary64 feed *)

Module Feed64Spec.

Import PrimFloat Feed64.

Definition age (dt : float) (m : Message) : Message :=
  set_time (time m - dt)%float m.
Definition alive (m : Message) : bool := negb (time m <=? 0)%float.
Definition decay (dt : float) (l : list Message) : list Message :=
  filter alive (map (age dt) l).




(** What becomes of one message over consecutive ticks. *)
Fixpoint fate (dts : list float) (m : Message) : option Message :=
  match dts with
  | [] => Some m
  | dt :: rest => if alive (age dt m) then fate rest (age dt m) else None
  end.

Definition survivors (dts : list float) (l : list Message) : list Message :=
  flat_map (fun m => match fate dts m with Some m' => [m'] | None => [] end) l.




End Feed64Spec.

(** ** States the game reaches (for the examples below) *)

Module Reachable.

Import Main Samples.

Definition walkAndJump : Keys := mkKeys false true true.

(** A first frame, twenty ticks of an eighth of a second running right
    while jumping, then jumping on the spot under the patrolling drone. *)
Definition approach : list Tick :=
  (0, noKeys) :: repeat (0.125, walkAndJump) 20.

Definition commute : list Tick :=
  approach ++ repeat (0.125, jumpKey) 52.

(** After the first hit, at the end of the approach. *)
Definition firstHit : Game := run canvas approach (startGame canvas).

(** Three hits in, the grace timer run out, the drone closing in. *)
Definition lastStand : Game := run canvas commute (startGame canvas).

(** One tick later. *)
Definition fallen : Game := update canvas 0.125 jumpKey lastStand.

End Reachable.

(** * Part II: properties *)

(** ** Comparisons *)

Lemma Qltb_lt (a b : Q) : (a <? b) = true <-> a < b.
Proof.
  unfold Qltb. rewrite negb_true_iff. split; intro H.
  - apply Qnot_le_lt. intro Hle. apply Qle_bool_iff in Hle. congruence.
  - destruct (Qle_bool b a) eqn:E; trivial.
    apply Qle_bool_iff in E. lra.
Qed.

Lemma Qltb_ge (a b : Q) : (a <? b) = false <-> b <= a.
Proof.
  unfold Qltb. rewrite negb_false_iff. apply Qle_bool_iff.
Qed.

Lemma Qgtb_gt (a b : Q) : (a >? b) = true <-> b < a.
Proof. apply Qltb_lt. Qed.

Lemma Qgtb_le (a b : Q) : (a >? b) = false <-> a <= b.
Proof. apply Qltb_ge. Qed.

Lemma Qleb_gt (a b : Q) : (a <=? b) = false <-> b < a.
Proof.
  split; intro H.
  - apply Qnot_le_lt. intro Hle. apply Qle_bool_iff in Hle. congruence.
  - destruct (a <=? b) eqn:E; trivial. apply Qle_bool_iff in E. lra.
Qed.

(** Case analysis on a comparison, leaving the order fact in the context. *)
Ltac case_cmp :=
  match goal with
  | |- context [ ?a <? ?b ] =>
      let E := fresh "Hlt" in
      destruct (a <? b) eqn:E;
      [ apply Qltb_lt in E | apply Qltb_ge in E ]
  | |- context [ ?a >? ?b ] =>
      let E := fresh "Hgt" in
      destruct (a >? b) eqn:E;
      [ apply Qgtb_gt in E | apply Qgtb_le in E ]
  | |- context [ ?a <=? ?b ] =>
      let E := fresh "Hle" in
      destruct (a <=? b) eqn:E;
      [ apply Qle_bool_iff in E | apply Qleb_gt in E ]
  end.

(** ** Geometry: what [rectsOverlap] decides *)

Lemma rectsOverlap_true {A B : Type} `{Rect A} `{Rect B} (a : A) (b : B) :
  rectsOverlap a b = true <->
  x b <= x a + width a /\ x a <= x b + width b /\
  y b <= y a + height a /\ y a <= y b + height b.
Proof.
  unfold rectsOverlap.
  rewrite negb_true_iff, !orb_false_iff, !Qltb_ge, !Qgtb_le.
  tauto.
Qed.

(** C7: two well-formed boxes in exact edge contact overlap: the test uses
    strict inequalities for separation, so touching edges collide. *)
Theorem rectsOverlap_edge_contact {A B : Type} `{Rect A} `{Rect B} (a : A) (b : B) :
  wellFormed a -> wellFormed b -> edgeContact a b -> rectsOverlap a b = true.
Proof.
  unfold wellFormed, edgeContact, vIntersect, hIntersect.
  intros [Hwa Hha] [Hwb Hhb] Hc.
  apply rectsOverlap_true.
  destruct Hc as [[He [H1 H2]] | [[He [H1 H2]] | [[He [H1 H2]] | [He [H1 H2]]]]];
    repeat split; lra.
Qed.

Lemma rectsOverlap_edge_contact_witness :
  let a := mkBox 0 0 10 10 in
  let b := mkBox 10 4 5 20 in
  rectsOverlap a b = true.
Proof.
  intros a b.
  apply (rectsOverlap_edge_contact a b).
  - unfold wellFormed; simpl; split; lra.
  - unfold wellFormed; simpl; split; lra.
  - left. unfold vIntersect; simpl. split; [reflexivity | split; lra].
Defined.

(** ** The frame orchestrator, by game state *)

Import Main MainSpec.

(** Reduce record projections over field assignments, and nothing else. *)
Ltac fields :=
  cbn [player coffee moneyPickups hrDrone burnout invincibleTimer credits
       messages gameOver gameOverReason cameraX
       set_player set_coffee set_moneyPickups set_hrDrone set_burnout
       set_invincibleTimer set_credits set_messages set_gameOver
       set_gameOverReason set_cameraX
       p_x p_y p_width p_height p_vx p_vy p_speed p_jumpForce p_onGround
       set_p_x set_p_y set_p_vx set_p_vy set_p_onGround
       k_x k_y k_width k_height collected set_collected
       d_x d_y d_width d_height d_vx leftBound rightBound set_d_x set_d_vx
       text time set_time left right jump
       Simple.player Simple.coffee
       andb orb negb fst snd].

Ltac break_if :=
  match goal with
  | |- context [ if ?c then _ else _ ] => destruct c eqn:?
  end.

(** Case analysis on a test that does not itself contain a test. *)
Ltac break_inner :=
  match goal with
  | |- context [ if ?c then _ else _ ] =>
      lazymatch c with
      | context [ if _ then _ else _ ] => fail
      | _ => destruct c eqn:?
      end
  end.

Lemma update_running canvas dt keys g :
  gameOver g = false ->
  update canvas dt keys g =
    updateMessages dt (updateCamera canvas (updateTimers dt
      (updatePickups dt (updateHRDrone dt (updatePlayer canvas dt keys g))))).
Proof. intro H. unfold update. rewrite H. reflexivity. Qed.

Lemma update_over canvas dt keys g :
  gameOver g = true ->
  update canvas dt keys g = updateMessages dt (updateCamera canvas g).
Proof. intro H. unfold update. rewrite H. reflexivity. Qed.

(** The backward splice scan is an order-preserving filter. *)
Lemma splice1_middle (l1 l2 : list Message) (m : Message) :
  splice1 (List.length l1) (l1 ++ m :: l2) = l1 ++ l2.
Proof. induction l1 as [| h t IH]; simpl; [reflexivity | now rewrite IH]. Qed.

Lemma nth_error_middle (l1 l2 : list Message) (m : Message) :
  nth_error (l1 ++ m :: l2) (List.length l1) = Some m.
Proof. induction l1 as [| h t IH]; simpl; [reflexivity | exact IH]. Qed.

Lemma removeExpired_app (l1 l2 : list Message) :
  removeExpired (List.length l1) (l1 ++ l2) = filter alive l1 ++ l2.
Proof.
  revert l2. induction l1 as [| m l1 IH] using rev_ind; intro l2.
  - reflexivity.
  - rewrite length_app, Nat.add_comm. simpl.
    rewrite <- app_assoc. simpl.
    rewrite nth_error_middle, filter_app. simpl. unfold alive at 2.
    destruct (time m <=? 0); simpl.
    + rewrite splice1_middle, IH, app_nil_r. reflexivity.
    + rewrite IH, <- app_assoc. reflexivity.
Qed.

Lemma removeExpired_filter (l : list Message) :
  removeExpired (List.length l) l = filter alive l.
Proof.
  rewrite <- (app_nil_r l) at 2.
  rewrite removeExpired_app. apply app_nil_r.
Qed.

Lemma messages_updateMessages dt g :
  messages (updateMessages dt g) = decay dt (messages g).
Proof. unfold updateMessages. simpl. apply removeExpired_filter. Qed.

(** What a tick that starts in GameOver leaves alone. *)
Lemma update_over_fields canvas dt keys g :
  gameOver g = true ->
  let g' := update canvas dt keys g in
  player g' = player g /\ hrDrone g' = hrDrone g /\
  coffee g' = coffee g /\ moneyPickups g' = moneyPickups g /\
  burnout g' = burnout g /\ credits g' = credits g /\
  gameOver g' = true.
Proof.
  intros H g'. subst g'. rewrite (update_over _ _ _ _ H).
  unfold updateMessages, updateCamera. fields. tauto.
Qed.

(** C2: a tick that starts in GameOver leaves the player, the hazard, the
    pickups, burnout, credits and the grace timer as they were; only the
    camera offset is recomputed and the message feed aged and pruned. *)
Theorem update_gameOver_frame canvas dt keys g :
  gameOver g = true ->
  let g' := update canvas dt keys g in
  player g' = player g /\ hrDrone g' = hrDrone g /\
  coffee g' = coffee g /\ moneyPickups g' = moneyPickups g /\
  burnout g' = burnout g /\ credits g' = credits g /\
  invincibleTimer g' = invincibleTimer g /\
  gameOver g' = true /\ gameOverReason g' = gameOverReason g /\
  cameraX g' = cameraX (updateCamera canvas g) /\
  messages g' = decay dt (messages g).
Proof.
  intros H g'. subst g'. rewrite (update_over _ _ _ _ H).
  rewrite messages_updateMessages.
  unfold updateMessages, updateCamera. simpl.
  repeat split; assumption.
Qed.

(** ** Player physics *)

(** The player object after [movePlayer], field by field. *)
Lemma movePlayer_spec canvas dt keys p :
  let vx := if right keys then p_speed p
            else if left keys then - p_speed p else 0 in
  let x1 := p_x p + vx * dt in
  let x2 := if x1 <? 0 then 0 else x1 in
  let x3 := if x2 + p_width p >? world_width
            then world_width - p_width p else x2 in
  let jumping := jump keys && p_onGround p in
  let vy1 := (if jumping then p_jumpForce p else p_vy p) + gravity * dt in
  let y1 := p_y p + vy1 * dt in
  let landed := y1 >? floorY canvas p in
  movePlayer canvas dt keys p =
    mkPlayer x3 (if landed then floorY canvas p else y1)
             (p_width p) (p_height p) vx (if landed then 0 else vy1)
             (p_speed p) (p_jumpForce p)
             (if landed then true else if jumping then false else p_onGround p).
Proof.
  destruct p as [px py pw ph pvx pvy ps pj pg].
  destruct keys as [[|] [|] kj]; destruct (kj && pg) eqn:J;
    unfold movePlayer, floorY; fields; rewrite ?J; fields;
    repeat (break_inner; fields); reflexivity.
Qed.

(** What each step of a running tick leaves alone. *)
Lemma updatePlayer_frame canvas dt keys g :
  let g' := updatePlayer canvas dt keys g in
  coffee g' = coffee g /\ moneyPickups g' = moneyPickups g /\
  hrDrone g' = hrDrone g /\ burnout g' = burnout g /\
  invincibleTimer g' = invincibleTimer g /\ credits g' = credits g /\
  messages g' = messages g /\ gameOver g' = gameOver g /\
  gameOverReason g' = gameOverReason g /\ cameraX g' = cameraX g.
Proof.
  unfold updatePlayer. destruct (gameOver g) eqn:E; fields; rewrite ?E; tauto.
Qed.

Lemma updatePlayer_running canvas dt keys g :
  gameOver g = false ->
  player (updatePlayer canvas dt keys g) = movePlayer canvas dt keys (player g).
Proof. intro H. unfold updatePlayer. rewrite H. reflexivity. Qed.

Lemma updateHRDrone_player dt g : player (updateHRDrone dt g) = player g.
Proof.
  unfold updateHRDrone, contactDamage, triggerGameOver, showMessage.
  repeat break_if; reflexivity.
Qed.

Lemma updatePickups_player dt g : player (updatePickups dt g) = player g.
Proof.
  unfold updatePickups, showMessage.
  break_if; fields; destruct (collectMoney _ _ _ _) as [[? ?] ?]; reflexivity.
Qed.

Lemma updateTimers_player dt g : player (updateTimers dt g) = player g.
Proof. unfold updateTimers. break_if; reflexivity. Qed.

Lemma update_player canvas dt keys g :
  player (update canvas dt keys g) = player (updatePlayer canvas dt keys g).
Proof.
  destruct (gameOver g) eqn:E.
  - rewrite (update_over _ _ _ _ E). unfold updatePlayer. rewrite E. reflexivity.
  - rewrite (update_running _ _ _ _ E). unfold updateMessages, updateCamera. fields.
    now rewrite updateTimers_player, updatePickups_player, updateHRDrone_player.
Qed.

(** C8: with the game running, the horizontal velocity a tick leaves is
    [+speed] when right is held (whatever left is), [-speed] when only left
    is held, and 0 when neither is: the previous velocity plays no part. *)
Theorem horizontal_velocity_from_input canvas dt keys g :
  gameOver g = false ->
  let v := if right keys then p_speed (player g)
           else if left keys then - p_speed (player g) else 0 in
  p_vx (player (updatePlayer canvas dt keys g)) = v /\
  p_vx (player (update canvas dt keys g)) = v.
Proof.
  intros H v. rewrite update_player, (updatePlayer_running _ _ _ _ H).
  rewrite movePlayer_spec. fields. split; reflexivity.
Qed.

(** The simplified variant's player after one tick, field by field. *)
Lemma simple_movePlayer_spec canvas dt keys p :
  let vx := if right keys then p_speed p
            else if left keys then - p_speed p else 0 in
  let x1 := p_x p + vx * dt in
  let x2 := if x1 <? 0 then 0 else x1 in
  let x3 := if x2 + p_width p >? WIDTH canvas
            then WIDTH canvas - p_width p else x2 in
  let jumping := jump keys && p_onGround p in
  let vy1 := (if jumping then p_jumpForce p else p_vy p) + Simple.gravity * dt in
  let y1 := p_y p + vy1 * dt in
  let floor := HEIGHT canvas - Simple.groundHeight - p_height p in
  let landed := y1 >? floor in
  Simple.movePlayer canvas dt keys p =
    mkPlayer x3 (if landed then floor else y1)
             (p_width p) (p_height p) vx (if landed then 0 else vy1)
             (p_speed p) (p_jumpForce p)
             (if landed then true else if jumping then false else p_onGround p).
Proof.
  destruct p as [px py pw ph pvx pvy ps pj pg].
  destruct keys as [[|] [|] kj]; destruct (kj && pg) eqn:J;
    unfold Simple.movePlayer; fields; rewrite ?J; fields;
    repeat (break_inner; fields); reflexivity.
Qed.

Lemma simple_update_player canvas dt keys (s : Simple.Game) :
  Simple.player (Simple.update canvas dt keys s) =
  Simple.movePlayer canvas dt keys (Simple.player s).
Proof. reflexivity. Qed.

(** C10: the simplified variant's [update] and the full variant's
    [updatePlayer] (game running) agree on the vertical state: from equal
    [y], [vy], [onGround], jump force and player height, on canvases of
    equal height, the same [dt] and keys give the same [y], [vy] and
    [onGround]. *)
Theorem variants_agree_vertically canvas canvas' dt keys (g : Main.Game) (s : Simple.Game) :
  gameOver g = false ->
  HEIGHT canvas = HEIGHT canvas' ->
  p_y (player g) = p_y (Simple.player s) ->
  p_vy (player g) = p_vy (Simple.player s) ->
  p_onGround (player g) = p_onGround (Simple.player s) ->
  p_jumpForce (player g) = p_jumpForce (Simple.player s) ->
  p_height (player g) = p_height (Simple.player s) ->
  Main.gravity = Simple.gravity /\ Main.groundHeight = Simple.groundHeight /\
  let p := player (updatePlayer canvas dt keys g) in
  let q := Simple.player (Simple.update canvas' dt keys s) in
  p_y p = p_y q /\ p_vy p = p_vy q /\ p_onGround p = p_onGround q.
Proof.
  intros Hrun HH Hy Hvy Hg Hj Hh.
  split; [reflexivity | split; [reflexivity |]].
  rewrite simple_update_player, simple_movePlayer_spec.
  rewrite (updatePlayer_running _ _ _ _ Hrun), movePlayer_spec. fields.
  unfold floorY. rewrite <- HH, <- Hy, <- Hvy, <- Hg, <- Hj, <- Hh.
  repeat split; reflexivity.
Qed.

(** ** Hazard patrol and contact damage *)

Lemma patrol_spec dt d :
  let x1 := d_x d + d_vx d * dt in
  let hitL := x1 <? leftBound d in
  let x2 := if hitL then leftBound d else x1 in
  let vx2 := if hitL then d_vx d * -1 else d_vx d in
  let hitR := x2 + d_width d >? rightBound d in
  patrol dt d =
    mkHRDrone (if hitR then rightBound d - d_width d else x2)
              (d_y d) (d_width d) (d_height d)
              (if hitR then vx2 * -1 else vx2)
              (leftBound d) (rightBound d).
Proof.
  destruct d as [dx dy dw dh dv lb rb].
  unfold patrol; fields; repeat (break_inner; fields); reflexivity.
Qed.

Lemma contactDamage_spec g :
  let fatal := (burnout g + 25 >=? burnoutMax)%Z in
  let g' := contactDamage g in
  player g' = player g /\ hrDrone g' = hrDrone g /\
  coffee g' = coffee g /\ moneyPickups g' = moneyPickups g /\
  credits g' = credits g /\ cameraX g' = cameraX g /\
  burnout g' = (if damaging g
                then if fatal then burnoutMax else (burnout g + 25)%Z
                else burnout g) /\
  invincibleTimer g' = (if damaging g then 1.0 else invincibleTimer g) /\
  gameOver g' = (if damaging g then fatal else gameOver g).
Proof.
  unfold contactDamage, damaging, triggerGameOver, showMessage.
  destruct (negb (gameOver g) && rectsOverlap (player g) (hrDrone g)) eqn:E1;
    fields; [| repeat split; reflexivity].
  destruct (invincibleTimer g <=? 0) eqn:E2; fields;
    [| repeat split; reflexivity].
  destruct (burnout g + 25 >=? burnoutMax)%Z eqn:E3; fields;
    repeat split; try reflexivity.
  apply andb_true_iff in E1. destruct E1 as [E1 _].
  now apply negb_true_iff in E1.
Qed.

Lemma updatePickups_frame dt g :
  let g' := updatePickups dt g in
  player g' = player g /\ hrDrone g' = hrDrone g /\
  burnout g' = burnout g /\ invincibleTimer g' = invincibleTimer g /\
  gameOver g' = gameOver g /\ gameOverReason g' = gameOverReason g /\
  cameraX g' = cameraX g.
Proof.
  unfold updatePickups, showMessage.
  break_if; fields; destruct (collectMoney _ _ _ _) as [[? ?] ?]; fields;
    repeat split; reflexivity.
Qed.

Lemma updateTimers_spec dt g :
  updateTimers dt g =
  set_invincibleTimer
    (if invincibleTimer g >? 0 then invincibleTimer g - dt else invincibleTimer g) g.
Proof.
  unfold updateTimers. break_if; [reflexivity |]. now destruct g.
Qed.

Lemma atCheck_damaging canvas dt keys g :
  gameOver g = false ->
  damaging (atCheck canvas dt keys g) =
  contact canvas dt keys g && (invincibleTimer g <=? 0).
Proof.
  intro H. unfold damaging, atCheck, contact. fields.
  destruct (updatePlayer_frame canvas dt keys g) as (_ & _ & _ & _ & Ht & _ & _ & Hg & _).
  cbv zeta in Ht, Hg. rewrite Ht, Hg, H. reflexivity.
Qed.

Lemma update_running_core canvas dt keys g :
  gameOver g = false ->
  let h := contactDamage (atCheck canvas dt keys g) in
  let g' := update canvas dt keys g in
  player g' = player h /\ hrDrone g' = hrDrone h /\
  burnout g' = burnout h /\ gameOver g' = gameOver h /\
  invincibleTimer g' =
    (if invincibleTimer h >? 0 then invincibleTimer h - dt else invincibleTimer h).
Proof.
  intros H h g'. subst h g'.
  rewrite (update_running _ _ _ _ H).
  assert (U : updateHRDrone dt (updatePlayer canvas dt keys g) =
              contactDamage (atCheck canvas dt keys g)).
  { unfold updateHRDrone, atCheck.
    destruct (updatePlayer_frame canvas dt keys g) as (_ & _ & Hd & _ & _ & _ & _ & Hg & _).
    cbv zeta in Hd, Hg. rewrite Hg, H, Hd. reflexivity. }
  rewrite U. set (h := contactDamage (atCheck canvas dt keys g)).
  unfold updateMessages, updateCamera. fields.
  rewrite updateTimers_spec. fields.
  destruct (updatePickups_frame dt h) as (A1 & A2 & A3 & A4 & A5 & _).
  cbv zeta in A1, A2, A3, A4, A5. rewrite A1, A2, A3, A4, A5.
  repeat split; reflexivity.
Qed.

(** One running tick, on the damage state. *)
Lemma tick_damage canvas dt keys g :
  gameOver g = false ->
  let hit := contact canvas dt keys g && (invincibleTimer g <=? 0) in
  let fatal := (burnout g + 25 >=? burnoutMax)%Z in
  let t := if hit then 1.0 else invincibleTimer g in
  let g' := update canvas dt keys g in
  burnout g' = (if hit then if fatal then burnoutMax else (burnout g + 25)%Z
                else burnout g) /\
  gameOver g' = (if hit then fatal else false) /\
  invincibleTimer g' = (if t >? 0 then t - dt else t).
Proof.
  intros H hit fatal t g'. subst hit fatal t g'.
  destruct (update_running_core canvas dt keys g H) as (_ & _ & B & G & T).
  cbv zeta in B, G, T. rewrite B, G, T.
  destruct (contactDamage_spec (atCheck canvas dt keys g))
    as (_ & _ & _ & _ & _ & _ & B' & T' & G').
  cbv zeta in B', T', G'. rewrite B', T', G'.
  rewrite (atCheck_damaging _ _ _ _ H).
  destruct (updatePlayer_frame canvas dt keys g) as (_ & _ & _ & Hb & Ht & _ & _ & Hg & _).
  cbv zeta in Hb, Ht, Hg.
  unfold atCheck. fields. rewrite Hb, Ht, Hg, H.
  repeat split; reflexivity.
Qed.

Lemma tick_hit canvas dt keys g :
  gameOver g = false ->
  contact canvas dt keys g = true ->
  invincibleTimer g <= 0 ->
  (burnout g + 25 < burnoutMax)%Z ->
  let g' := update canvas dt keys g in
  burnout g' = (burnout g + 25)%Z /\ gameOver g' = false /\
  invincibleTimer g' == 1 - dt.
Proof.
  intros H C T B g'. subst g'.
  destruct (tick_damage canvas dt keys g H) as (B' & G' & T').
  cbv zeta in B', G', T'. rewrite B', G', T', C.
  apply Qle_bool_iff in T. rewrite T. cbn [andb].
  assert (F : (burnout g + 25 >=? burnoutMax)%Z = false) by lia.
  rewrite F. repeat split.
  change (1.0 >? 0) with true. cbv iota. lra.
Qed.

Lemma tick_grace canvas dt keys g :
  gameOver g = false ->
  0 < invincibleTimer g ->
  let g' := update canvas dt keys g in
  burnout g' = burnout g /\ gameOver g' = false /\
  invincibleTimer g' == invincibleTimer g - dt.
Proof.
  intros H T g'. subst g'.
  destruct (tick_damage canvas dt keys g H) as (B' & G' & T').
  cbv zeta in B', G', T'. rewrite B', G', T'.
  assert (F : (invincibleTimer g <=? 0) = false) by now apply Qleb_gt.
  rewrite F, andb_false_r.
  apply Qgtb_gt in T. rewrite T. repeat split.
Qed.

(** C4: from a zero grace timer and zero burnout, three consecutive ticks
    of half a second in contact with the hazard damage the player on the
    first and on the third tick only: burnout reads 25, 25, 50. *)
Theorem damage_rate_limited canvas k1 k2 k3 g0 :
  gameOver g0 = false ->
  invincibleTimer g0 == 0 ->
  burnout g0 = 0%Z ->
  let g1 := update canvas 0.5 k1 g0 in
  let g2 := update canvas 0.5 k2 g1 in
  let g3 := update canvas 0.5 k3 g2 in
  contact canvas 0.5 k1 g0 = true ->
  contact canvas 0.5 k2 g1 = true ->
  contact canvas 0.5 k3 g2 = true ->
  burnout g1 = 25%Z /\ burnout g2 = 25%Z /\ burnout g3 = 50%Z.
Proof.
  intros H0 T0 B0 g1 g2 g3 C1 C2 C3.
  destruct (tick_hit canvas 0.5 k1 g0 H0 C1) as (B1 & G1 & T1);
    [lra | rewrite B0; unfold burnoutMax; lia |].
  fold g1 in B1, G1, T1. rewrite B0 in B1. change (0 + 25)%Z with 25%Z in B1.
  destruct (tick_grace canvas 0.5 k2 g1 G1) as (B2 & G2 & T2); [lra |].
  fold g2 in B2, G2, T2. rewrite B1 in B2.
  destruct (tick_hit canvas 0.5 k3 g2 G2 C3) as (B3 & G3 & T3);
    [lra | rewrite B2; unfold burnoutMax; lia |].
  fold g3 in B3. rewrite B2 in B3. change (25 + 25)%Z with 50%Z in B3.
  repeat split; assumption.
Qed.

(** ** The terminal state *)

Lemma run_cons canvas t ticks g :
  run canvas (t :: ticks) g = run canvas ticks (update canvas (fst t) (snd t) g).
Proof. reflexivity. Qed.

Lemma update_burnoutConsistent canvas dt keys g :
  burnoutConsistent g -> burnoutConsistent (update canvas dt keys g).
Proof.
  unfold burnoutConsistent. intro I.
  destruct (gameOver g) eqn:E.
  - destruct (update_over_fields canvas dt keys g E)
      as (_ & _ & _ & _ & B & _ & G).
    cbv zeta in B, G. now rewrite G, B.
  - destruct (tick_damage canvas dt keys g E) as (B & G & _).
    cbv zeta in B, G. rewrite G, B.
    destruct (contact canvas dt keys g && (invincibleTimer g <=? 0)); [| exact I].
    destruct (burnout g + 25 >=? burnoutMax)%Z eqn:F; [reflexivity | lia].
Qed.

Lemma run_burnoutConsistent canvas ticks g :
  burnoutConsistent g -> burnoutConsistent (run canvas ticks g).
Proof.
  revert g. induction ticks as [| t ticks IH]; intros g I; [exact I |].
  rewrite run_cons. apply IH. now apply update_burnoutConsistent.
Qed.

Lemma run_gameOver canvas ticks g :
  gameOver g = true ->
  gameOver (run canvas ticks g) = true /\
  burnout (run canvas ticks g) = burnout g.
Proof.
  revert g. induction ticks as [| t ticks IH]; intros g E; [now split |].
  rewrite run_cons.
  destruct (update_over_fields canvas (fst t) (snd t) g E)
    as (_ & _ & _ & _ & B & _ & G).
  cbv zeta in B, G.
  destruct (IH _ G) as (G' & B'). split; [exact G' | congruence].
Qed.

(** The tick on which the last hit lands. *)
Lemma fatal_hit canvas dt keys g :
  gameOver g = false ->
  contact canvas dt keys g = true ->
  invincibleTimer g <= 0 ->
  (burnoutMax <= burnout g + 25)%Z ->
  burnout (update canvas dt keys g) = burnoutMax /\
  gameOver (update canvas dt keys g) = true.
Proof.
  intros H C T B.
  destruct (tick_damage canvas dt keys g H) as (B' & G' & _).
  cbv zeta in B', G'. rewrite B', G', C.
  apply Qle_bool_iff in T. rewrite T. cbn [andb].
  assert (F : (burnout g + 25 >=? burnoutMax)%Z = true) by lia.
  rewrite F. split; reflexivity.
Qed.

(** Along any run from a state where burnout and game state agree, burnout
    never passes [burnoutMax], and where it stands at [burnoutMax] the game
    is over and stays so. *)
Lemma burnout_never_passes_max canvas g :
  burnoutConsistent g ->
  forall ticks,
    let g' := run canvas ticks g in
    (burnout g' <= burnoutMax)%Z /\
    ((burnoutMax <= burnout g')%Z ->
       burnout g' = burnoutMax /\ gameOver g' = true /\
       forall more,
         gameOver (run canvas more g') = true /\
         burnout (run canvas more g') = burnoutMax).
Proof.
  intros I ticks g'.
  assert (I' : burnoutConsistent g') by now apply run_burnoutConsistent.
  unfold burnoutConsistent in I'.
  destruct (gameOver g') eqn:E.
  - split; [lia |]. intros _. split; [exact I' | split; [reflexivity |]].
    intro more. destruct (run_gameOver canvas more g' E) as (G & B).
    split; [exact G | congruence].
  - split; [lia |]. intro Habs. lia.
Qed.

(** C5: the hit that takes burnout to or past [burnoutMax] leaves it at
    exactly [burnoutMax] and ends the game on that tick; from then on,
    whatever ticks follow (any [dt], any keys), the game stays over and
    burnout stays at [burnoutMax]. *)
Theorem burnout_terminal canvas dt keys g :
  gameOver g = false ->
  contact canvas dt keys g = true ->
  invincibleTimer g <= 0 ->
  (burnoutMax <= burnout g + 25)%Z ->
  let g' := update canvas dt keys g in
  burnout g' = burnoutMax /\ gameOver g' = true /\
  forall more,
    gameOver (run canvas more g') = true /\
    burnout (run canvas more g') = burnoutMax.
Proof.
  intros E C T B g'.
  destruct (fatal_hit canvas dt keys g E C T B) as (Bm & G). fold g' in Bm, G.
  split; [exact Bm | split; [exact G |]].
  intro more. destruct (run_gameOver canvas more g' G) as (G' & B').
  split; [exact G' | congruence].
Qed.

(** ** Bounds *)

Lemma movePlayer_bounds canvas dt keys p :
  p_width p <= world_width ->
  playerInBounds (movePlayer canvas dt keys p) /\
  p_width (movePlayer canvas dt keys p) = p_width p.
Proof.
  intro W. rewrite movePlayer_spec. unfold playerInBounds. fields.
  split; [| reflexivity].
  repeat case_cmp; split; lra.
Qed.

Lemma patrol_bounds dt d :
  d_width d <= rightBound d - leftBound d ->
  droneInBounds (patrol dt d) /\
  d_width (patrol dt d) = d_width d /\
  leftBound (patrol dt d) = leftBound d /\
  rightBound (patrol dt d) = rightBound d.
Proof.
  intro W. rewrite patrol_spec. unfold droneInBounds. fields.
  split; [| repeat split; reflexivity].
  repeat case_cmp; split; lra.
Qed.

Lemma update_bounds canvas dt keys g :
  roomy g -> inBounds g ->
  roomy (update canvas dt keys g) /\ inBounds (update canvas dt keys g).
Proof.
  unfold roomy, inBounds. intros [Wp Wd] [Bp Bd].
  destruct (gameOver g) eqn:E.
  - destruct (update_over_fields canvas dt keys g E) as (P & D & _).
    cbv zeta in P, D. rewrite P, D. tauto.
  - destruct (update_running_core canvas dt keys g E) as (P & D & _).
    cbv zeta in P, D. rewrite P, D.
    destruct (contactDamage_spec (atCheck canvas dt keys g)) as (P' & D' & _).
    cbv zeta in P', D'. rewrite P', D'.
    unfold atCheck. fields. rewrite (updatePlayer_running _ _ _ _ E).
    destruct (movePlayer_bounds canvas dt keys (player g) Wp) as (Bp' & Ep).
    destruct (patrol_bounds dt (hrDrone g) Wd) as (Bd' & Ed & El & Er).
    rewrite Ep, Ed, El, Er. tauto.
Qed.

(** C6: if the world is at least as wide as the player and the patrol
    range at least as wide as the hazard, and both start within their
    bounds, then after every tick of any run (any [dt], any keys)
    [player.x] lies in [[0, world.width - player.width]] and [hazard.x] in
    [[leftBound, rightBound - hazard.width]]. *)
Theorem bounds_invariant canvas g :
  roomy g -> inBounds g ->
  forall ticks, inBounds (run canvas ticks g).
Proof.
  intros R B ticks. revert g R B.
  induction ticks as [| t ticks IH]; intros g R B; [exact B |].
  rewrite run_cons.
  destruct (update_bounds canvas (fst t) (snd t) g R B) as (R' & B').
  now apply IH.
Qed.

(** ** The jump tick *)

(** C3 (as the code has it): a grounded player at or above the floor line
    who jumps gets, on that same tick of [dt = 0.016], the vertical
    velocity [jumpForce + gravity * dt] (gravity is added after the jump
    impulse, within the tick) and leaves the ground, provided the impulse
    outweighs one tick of gravity. *)
Theorem jump_tick canvas keys g :
  gameOver g = false ->
  p_onGround (player g) = true ->
  jump keys = true ->
  p_y (player g) <= floorY canvas (player g) ->
  p_jumpForce (player g) + gravity * 0.016 <= 0 ->
  let p' := player (update canvas 0.016 keys g) in
  p_vy p' = p_jumpForce (player g) + gravity * 0.016 /\
  p_vy p' == p_jumpForce (player g) + 32 /\
  p_onGround p' = false.
Proof.
  intros H G J Y F p'. subst p'.
  rewrite update_player, (updatePlayer_running _ _ _ _ H), movePlayer_spec.
  fields. rewrite J, G. cbn [andb].
  assert (L : (p_y (player g) + (p_jumpForce (player g) + gravity * 0.016) * 0.016
               >? floorY canvas (player g)) = false).
  { apply Qgtb_le. unfold gravity in *. lra. }
  rewrite L. unfold gravity. repeat split.
  lra.
Qed.

(** ** Pickup resolution *)

Lemma collectMoney_spec p ms cr msgs :
  collectMoney p ms cr msgs =
  (map (collect p) ms,
   (cr + 20 * Z.of_nat (hits p ms))%Z,
   msgs ++ creditMessages cr (hits p ms)).
Proof.
  revert cr msgs. induction ms as [| m rest IH]; intros cr msgs.
  - cbn. now rewrite Z.add_0_r, app_nil_r.
  - cbn [collectMoney map]. unfold hits, collect. cbn [filter].
    fold (fires p m). destruct (fires p m).
    + rewrite IH. cbn [List.length creditMessages]. fold (hits p rest).
      rewrite <- app_assoc. cbn [app].
      f_equal. f_equal. lia.
    + rewrite IH. reflexivity.
Qed.

Lemma updatePickups_spec dt g :
  let p := player g in
  let n := hits p (moneyPickups g) in
  updatePickups dt g =
  set_messages
    (messages g ++ coffeeMessages p (coffee g) ++ creditMessages (credits g) n)
    (set_credits (credits g + 20 * Z.of_nat n)%Z
       (set_moneyPickups (map (collect p) (moneyPickups g))
          (set_coffee (collect p (coffee g)) g))).
Proof.
  unfold updatePickups, showMessage, coffeeMessages, collect.
  fold (fires (player g) (coffee g)).
  destruct (fires (player g) (coffee g)); fields;
    rewrite collectMoney_spec; fields.
  - rewrite <- app_assoc. reflexivity.
  - destruct g; reflexivity.
Qed.

(** The pickup step of a running tick, against the player's box of that
    tick. *)
Lemma running_tick_pickups canvas dt keys g :
  gameOver g = false ->
  let p := player (updatePlayer canvas dt keys g) in
  let h := updateHRDrone dt (updatePlayer canvas dt keys g) in
  let g' := update canvas dt keys g in
  coffee g' = collect p (coffee g) /\
  moneyPickups g' = map (collect p) (moneyPickups g) /\
  credits g' = (credits g + 20 * Z.of_nat (hits p (moneyPickups g)))%Z /\
  messages g' =
    decay dt (messages h ++ coffeeMessages p (coffee g)
              ++ creditMessages (credits g) (hits p (moneyPickups g))).
Proof.
  intros E p h g'. subst g'. rewrite (update_running _ _ _ _ E). fold h.
  rewrite messages_updateMessages.
  unfold updateMessages, updateCamera. fields.
  rewrite updateTimers_spec. fields.
  rewrite updatePickups_spec. fields.
  assert (Hp : player h = p) by apply updateHRDrone_player.
  assert (Hk : coffee h = coffee g /\ moneyPickups h = moneyPickups g /\
               credits h = credits g).
  { subst h. unfold updateHRDrone.
    destruct (updatePlayer_frame canvas dt keys g)
      as (Hc & Hm & _ & _ & _ & Hcr & _ & Hg & _).
    cbv zeta in Hc, Hm, Hcr, Hg. rewrite Hg, E.
    destruct (contactDamage_spec
                (set_hrDrone (patrol dt (hrDrone (updatePlayer canvas dt keys g)))
                             (updatePlayer canvas dt keys g)))
      as (_ & _ & Kc & Km & Kcr & _).
    cbv zeta in Kc, Km, Kcr. rewrite Kc, Km, Kcr. fields. tauto. }
  destruct Hk as (Hc & Hm & Hcr). rewrite Hp, Hc, Hm, Hcr.
  repeat split; reflexivity.
Qed.

Lemma collect_fires p m : fires p m = true -> collected (collect p m) = true.
Proof. intro F. unfold collect. now rewrite F. Qed.

Lemma fires_collect p m : fires p (collect p m) = false.
Proof.
  unfold collect. destruct (fires p m) eqn:E; [reflexivity | exact E].
Qed.

(** How [update] itself is written: the pickup step sits under the
    [if (!gameOver)] of [update], so a tick that starts with the game
    running resolves the pickups (also when the hazard ends the game on that
    very tick) and a tick that starts in GameOver leaves them alone. *)
Lemma pickups_gated_by_game_state canvas dt keys g :
  let p := player (updatePlayer canvas dt keys g) in
  let h := updateHRDrone dt (updatePlayer canvas dt keys g) in
  let g' := update canvas dt keys g in
  (gameOver g = false ->
     coffee g' = collect p (coffee g) /\
     moneyPickups g' = map (collect p) (moneyPickups g) /\
     credits g' = (credits g + 20 * Z.of_nat (hits p (moneyPickups g)))%Z /\
     messages g' =
       decay dt (messages h ++ coffeeMessages p (coffee g)
                 ++ creditMessages (credits g) (hits p (moneyPickups g))) /\
     (forall m, fires p m = true -> collected (collect p m) = true)) /\
  (gameOver g = true ->
     coffee g' = coffee g /\ moneyPickups g' = moneyPickups g /\
     credits g' = credits g).
Proof.
  intros p h g'. split; intro E.
  - destruct (running_tick_pickups canvas dt keys g E) as (Hc & Hm & Hcr & Hmsg).
    fold p h g' in Hc, Hm, Hcr, Hmsg.
    repeat split; try assumption. apply collect_fires.
  - destruct (update_over_fields canvas dt keys g E)
      as (_ & _ & Hc & Hm & _ & Hcr & _).
    fold g' in Hc, Hm, Hcr. tauto.
Qed.

(** From the start configuration the guard cannot be seen: after any tick no
    uncollected pickup is left overlapping the player, so a game that is
    over never has a pickup pending under the frozen player. *)
Lemma update_settled canvas dt keys g :
  gameOver g = false \/ settled g -> settled (update canvas dt keys g).
Proof.
  unfold settled. intro H.
  destruct (gameOver g) eqn:E.
  - destruct H as [H | [Hc Hm]]; [discriminate |].
    destruct (update_over_fields canvas dt keys g E) as (P & _ & C & M & _).
    cbv zeta in P, C, M. rewrite P, C, M. now split.
  - destruct (running_tick_pickups canvas dt keys g E) as (C & M & _).
    cbv zeta in C, M. rewrite C, M, update_player.
    split; [apply fires_collect |].
    apply Forall_map, Forall_forall. intros m _. apply fires_collect.
Qed.

Lemma run_settled canvas ticks g : settled g -> settled (run canvas ticks g).
Proof.
  revert g. induction ticks as [| t ticks IH]; intros g S; [exact S |].
  rewrite run_cons. apply IH, update_settled. now right.
Qed.

Lemma initialGame_settled canvas : settled (initialGame canvas).
Proof. split; [reflexivity | repeat constructor]. Qed.




(** ** The message feed *)

Lemma decay_app dt l1 l2 : decay dt (l1 ++ l2) = decay dt l1 ++ decay dt l2.
Proof. unfold decay. now rewrite map_app, filter_app. Qed.

(** No step of the tick reads the feed: older messages ride along. *)
Lemma updatePlayer_prepend canvas dt keys l g :
  updatePlayer canvas dt keys (prepend l g) = prepend l (updatePlayer canvas dt keys g).
Proof.
  unfold updatePlayer, prepend. fields.
  generalize (movePlayer canvas dt keys (player g)). intro p.
  destruct (gameOver g); reflexivity.
Qed.

Lemma contactDamage_prepend l g :
  contactDamage (prepend l g) = prepend l (contactDamage g).
Proof.
  unfold contactDamage, prepend, triggerGameOver, showMessage. fields.
  repeat break_if; fields; rewrite <- ?app_assoc; reflexivity.
Qed.

Lemma updateHRDrone_prepend dt l g :
  updateHRDrone dt (prepend l g) = prepend l (updateHRDrone dt g).
Proof.
  unfold updateHRDrone.
  change (gameOver (prepend l g)) with (gameOver g).
  destruct (gameOver g); [reflexivity |].
  rewrite <- contactDamage_prepend. reflexivity.
Qed.

Lemma updatePickups_prepend dt l g :
  updatePickups dt (prepend l g) = prepend l (updatePickups dt g).
Proof.
  rewrite !updatePickups_spec. unfold prepend. fields.
  rewrite <- app_assoc. reflexivity.
Qed.

Lemma updateTimers_prepend dt l g :
  updateTimers dt (prepend l g) = prepend l (updateTimers dt g).
Proof. rewrite !updateTimers_spec. reflexivity. Qed.

Lemma updateCamera_prepend canvas l g :
  updateCamera canvas (prepend l g) = prepend l (updateCamera canvas g).
Proof. reflexivity. Qed.

Lemma updateMessages_prepend dt l g :
  updateMessages dt (prepend l g) = prepend (decay dt l) (updateMessages dt g).
Proof.
  assert (E : forall h, updateMessages dt h = set_messages (decay dt (messages h)) h).
  { intro h. unfold updateMessages. now rewrite removeExpired_filter. }
  rewrite !E. unfold prepend. fields. now rewrite decay_app.
Qed.

Lemma update_prepend canvas dt keys l g :
  update canvas dt keys (prepend l g) =
  prepend (decay dt l) (update canvas dt keys g).
Proof.
  unfold update. change (gameOver (prepend l g)) with (gameOver g).
  destruct (gameOver g); cbn [negb].
  - now rewrite updateCamera_prepend, updateMessages_prepend.
  - now rewrite updatePlayer_prepend, updateHRDrone_prepend,
      updatePickups_prepend, updateTimers_prepend, updateCamera_prepend,
      updateMessages_prepend.
Qed.

Lemma run_prepend canvas ticks l g :
  run canvas ticks (prepend l g) =
  prepend (decayAll (map fst ticks) l) (run canvas ticks g).
Proof.
  revert l g. induction ticks as [| t ticks IH]; intros l g; [reflexivity |].
  rewrite !run_cons, update_prepend, IH. reflexivity.
Qed.

(** Ageing a feed tick by tick is deciding the fate of each message. *)
Lemma survivors_decay dt dts l :
  survivors dts (decay dt l) = survivors (dt :: dts) l.
Proof.
  unfold survivors, decay. induction l as [| m l IH]; [reflexivity |].
  cbn [map filter flat_map fate].
  destruct (alive (age dt m)); cbn [flat_map app]; now rewrite IH.
Qed.

Lemma decayAll_survivors dts l : decayAll dts l = survivors dts l.
Proof.
  revert l. induction dts as [| dt dts IH]; intro l.
  - unfold survivors. cbn. induction l as [| m l IHl]; [reflexivity |].
    cbn. now rewrite <- IHl.
  - cbn [decayAll fold_left]. fold (decayAll dts (decay dt l)).
    now rewrite IH, survivors_decay.
Qed.

Lemma survivors_app dts l1 l2 :
  survivors dts (l1 ++ l2) = survivors dts l1 ++ survivors dts l2.
Proof. unfold survivors. apply flat_map_app. Qed.

Lemma elapsed_nonneg dts : Forall (fun dt => 0 <= dt) dts -> 0 <= elapsed dts.
Proof.
  induction 1 as [| dt dts H _ IH]; cbn; [lra |].
  fold (elapsed dts). lra.
Qed.

Lemma Qltb_ext (a b c d : Q) : (a < b <-> c < d) -> (a <? b) = (c <? d).
Proof.
  intro H. destruct (a <? b) eqn:E1, (c <? d) eqn:E2; trivial.
  - apply Qltb_lt in E1. apply Qltb_ge in E2. apply H in E1. lra.
  - apply Qltb_ge in E1. apply Qltb_lt in E2. apply H in E2. lra.
Qed.

(** A message lasts exactly as long as the elapsed time stays below its
    countdown. *)
Lemma fate_countdown dts txt T :
  Forall (fun dt => 0 <= dt) dts ->
  0 < T ->
  fate dts (mkMessage txt T) =
  if elapsed dts <? T then Some (mkMessage txt (remaining dts T)) else None.
Proof.
  intro H. revert T. induction H as [| dt dts Hdt Hdts IH]; intros T HT.
  - cbn [fate elapsed remaining fold_right fold_left].
    apply Qltb_lt in HT. now rewrite HT.
  - cbn [fate elapsed remaining fold_right fold_left].
    fold (elapsed dts). fold (remaining dts (T - dt)).
    unfold alive, age. fields.
    pose proof (elapsed_nonneg dts Hdts) as Hn.
    destruct (T - dt <=? 0) eqn:E; cbn [negb].
    + apply Qle_bool_iff in E.
      assert (F : (dt + elapsed dts <? T) = false) by (apply Qltb_ge; lra).
      now rewrite F.
    + apply Qleb_gt in E.
      change (set_time (T - dt) (mkMessage txt T)) with (mkMessage txt (T - dt)).
      rewrite (IH _ E).
      rewrite (Qltb_ext (elapsed dts) (T - dt) (dt + elapsed dts) T)
        by (split; intro; lra).
      reflexivity.
Qed.

(** In exact arithmetic: a message posted by [showMessage] (display
    duration 7 s) is in the feed after a run of ticks exactly when the
    elapsed time of those ticks is below 7, with the rest of its countdown;
    it sits after the survivors of the older messages, which keep their
    order, and before the messages posted during the run.  (The program
    counts down in binary64, where the last tick can differ: see the
    binary64 feed below.) *)
Lemma message_expiry_exact canvas ticks txt g :
  Forall (fun t => 0 <= fst t) ticks ->
  let dts := map fst ticks in
  messages (run canvas ticks (showMessage txt g)) =
    survivors dts (messages g)
    ++ (if elapsed dts <? displayDuration
        then [mkMessage txt (remaining dts displayDuration)] else [])
    ++ messages (run canvas ticks (set_messages [] g)).
Proof.
  intros H dts.
  assert (Hd : Forall (fun dt => 0 <= dt) dts).
  { subst dts. induction H; cbn; constructor; assumption. }
  assert (E : showMessage txt g =
              prepend (messages g ++ [mkMessage txt 7]) (set_messages [] g)).
  { unfold showMessage, prepend. fields. now rewrite app_nil_r. }
  rewrite E, run_prepend. fold dts. unfold prepend. fields.
  rewrite decayAll_survivors, survivors_app, <- app_assoc.
  f_equal. f_equal.
  unfold survivors. cbn [flat_map]. rewrite app_nil_r.
  rewrite (fate_countdown dts txt 7 Hd) by (unfold Qlt; cbn; lia).
  unfold displayDuration. destruct (elapsed dts <? 7); reflexivity.
Qed.

(** ** The properties at sample inputs *)

Import Samples Reachable.

Ltac by_computation := vm_compute; reflexivity.
Ltac Qle_by_computation := apply Qle_bool_iff; vm_compute; reflexivity.

Lemma update_gameOver_frame_witness :
  let g := overOnCoffee in
  let g' := update canvas 0.016 jumpKey g in
  player g' = player g /\ hrDrone g' = hrDrone g /\
  coffee g' = coffee g /\ moneyPickups g' = moneyPickups g /\
  burnout g' = burnout g /\ credits g' = credits g /\
  invincibleTimer g' = invincibleTimer g /\
  gameOver g' = true /\ gameOverReason g' = gameOverReason g /\
  cameraX g' = cameraX (updateCamera canvas g) /\
  messages g' = decay 0.016 (messages g).
Proof.
  exact (update_gameOver_frame canvas 0.016 jumpKey overOnCoffee eq_refl).
Defined.

Lemma horizontal_velocity_from_input_witness :
  p_vx (player (updatePlayer canvas 0.016 bothKeys start)) = 350 /\
  p_vx (player (update canvas 0.016 bothKeys start)) = 350.
Proof.
  exact (horizontal_velocity_from_input canvas 0.016 bothKeys start eq_refl).
Defined.

Lemma variants_agree_vertically_witness :
  let p := player (updatePlayer canvas 0.016 jumpKey start) in
  let q := Simple.player
             (Simple.update narrowCanvas 0.016 jumpKey (Simple.initialGame narrowCanvas)) in
  p_y p = p_y q /\ p_vy p = p_vy q /\ p_onGround p = p_onGround q.
Proof.
  exact (proj2 (proj2
    (variants_agree_vertically canvas narrowCanvas 0.016 jumpKey start
       (Simple.initialGame narrowCanvas)
       eq_refl eq_refl eq_refl eq_refl eq_refl eq_refl eq_refl))).
Defined.

Lemma jump_tick_witness :
  let p' := player (update canvas 0.016 jumpKey start) in
  p_vy p' = -750 + gravity * 0.016 /\ p_vy p' == -750 + 32 /\
  p_onGround p' = false.
Proof.
  apply (jump_tick canvas jumpKey start); try reflexivity; Qle_by_computation.
Defined.

(** C3, as stated, fails on the first frame of a jump from the starting
    position: the velocity after the tick is -718, not [jumpForce]. *)
Lemma jump_tick_counterexample :
  gameOver start = false /\
  p_onGround (player start) = true /\
  jump jumpKey = true /\
  let p' := player (update canvas 0.016 jumpKey start) in
  p_vy p' == -718 /\ ~ p_vy p' == p_jumpForce (player start).
Proof.
  repeat split.
  intro H. apply Qeq_bool_iff in H. vm_compute in H. discriminate.
Qed.

Lemma damage_rate_limited_witness :
  let g1 := update canvas 0.5 noKeys pinned in
  let g2 := update canvas 0.5 noKeys g1 in
  let g3 := update canvas 0.5 noKeys g2 in
  burnout g1 = 25%Z /\ burnout g2 = 25%Z /\ burnout g3 = 50%Z.
Proof.
  apply (damage_rate_limited canvas noKeys noKeys noKeys pinned);
    by_computation.
Defined.

(** The play of [commute]: three hits survived, then the fourth. *)
Example commute_ends_the_game :
  gameOver lastStand = false /\ burnout lastStand = 75%Z /\
  gameOver fallen = true /\ burnout fallen = 100%Z /\
  collected (coffee fallen) = true /\ credits fallen = 20%Z.
Proof. repeat split; by_computation. Qed.

Lemma burnout_terminal_witness :
  let g' := update canvas 0.125 jumpKey lastStand in
  burnout g' = burnoutMax /\ gameOver g' = true /\
  forall more,
    gameOver (run canvas more g') = true /\
    burnout (run canvas more g') = burnoutMax.
Proof.
  apply (burnout_terminal canvas 0.125 jumpKey lastStand).
  - by_computation.
  - by_computation.
  - Qle_by_computation.
  - vm_compute. discriminate.
Defined.


(** On the way the player runs over the coffee and the first credit: both
    are collected on the tick their boxes first overlap, and the credit
    posts its message. *)
Example pickups_collected_on_the_way :
  let before := run canvas (firstn 5 commute) (startGame canvas) in
  let after := update canvas 0.125 walkAndJump before in
  collected (coffee before) = false /\
  fires (player after) (coffee before) = true /\
  collected (coffee after) = true /\
  credits lastStand = 20%Z /\
  map collected (moneyPickups lastStand) = [true; false; false].
Proof. repeat split; by_computation. Qed.

(** The last hit does end the game: from 75, one more contact gives 100 and
    GameOver, and further input changes nothing. *)
Example last_hit_ends_game :
  let g' := update canvas 0.5 noKeys worn in
  burnout g' = 100%Z /\ gameOver g' = true /\
  gameOver (run canvas [(0.016, jumpKey); (0.016, rightKey)] g') = true.
Proof. repeat split. Qed.

Lemma bounds_invariant_witness :
  inBounds (run canvas [(0.016, rightKey); (10, rightKey); (100, leftKey)] start).
Proof.
  apply (bounds_invariant canvas start).
  - split; Qle_by_computation.
  - split; split; Qle_by_computation.
Defined.

(** The message is there while less than 7 s have elapsed and gone at 7. *)
Example message_gone_at_seven :
  map text (messages (run canvas [(3, noKeys); (3.5, noKeys)] (startGame canvas)))
    = ["Morning commute: try not to burn out before the office."%string] /\
  messages (run canvas [(3, noKeys); (3.5, noKeys); (0.5, noKeys)]
              (startGame canvas)) = [].
Proof. split; by_computation. Qed.

(** The guard at work on a running tick: the coffee is picked up. *)
Example coffee_picked_up_when_running :
  collected (coffee nearCoffee) = false /\
  collected (coffee (update canvas 0.016 rightKey nearCoffee)) = true.
Proof.
  split; [reflexivity |].
  destruct (pickups_gated_by_game_state canvas 0.016 rightKey nearCoffee) as [H _].
  destruct (H eq_refl) as (Hc & _). rewrite Hc. by_computation.
Qed.

(** The guard seen from outside the game: on a GameOver state built by hand
    with an uncollected pickup under the player (a state no play reaches,
    by [run_running_or_settled]), the tick leaves the pickup and the credits
    alone. *)
Example gameOver_tick_skips_pickups :
  (let g := overOnCoffee in
   gameOver g = true /\ collected (coffee g) = false /\
   rectsOverlap (player g) (coffee g) = true /\
   collected (coffee (update canvas 0.016 noKeys g)) = false) /\
  (let g := overOnCredit in
   let g' := update canvas 0.016 noKeys g in
   gameOver g = true /\
   exists m, nth_error (moneyPickups g) 0 = Some m /\
     collected m = false /\ rectsOverlap (player g) m = true /\
     nth_error (moneyPickups g') 0 = Some m /\
     credits g' = credits g /\ messages g' = []).
Proof.
  split.
  - repeat split.
  - cbv zeta. split; [reflexivity |].
    eexists. split; [reflexivity |]. repeat split.
Qed.

(** Scenarios of the specification, run on the model. *)
Example left_at_world_edge :
  let g := set_player (set_p_x 0 (player start)) start in
  let p' := player (update canvas 0.1 leftKey g) in
  p_x p' = 0 /\ p_vx p' = -350.
Proof. split; by_computation. Qed.

Example hazard_bounces_at_right_bound :
  let d := mkHRDrone (1250 - 48) 100 48 48 120 950 1250 in
  d_x (patrol 0.5 d) = 1250 - 48 /\ d_vx (patrol 0.5 d) == -120.
Proof. split; by_computation. Qed.

(** * Part III: further properties of the code *)

Import Host HostSpec.

(** ** Camera *)

Lemma updateCamera_spec canvas g :
  updateCamera canvas g = set_cameraX (cameraFor canvas (player g)) g.
Proof. reflexivity. Qed.

(** After a tick the camera is the one computed for the player of that
    tick. *)
Lemma update_cameraX canvas dt keys g :
  cameraX (update canvas dt keys g) =
  cameraFor canvas (player (update canvas dt keys g)).
Proof.
  destruct (gameOver g) eqn:E.
  - rewrite (update_over _ _ _ _ E). reflexivity.
  - rewrite (update_running _ _ _ _ E). reflexivity.
Qed.

Ltac halves :=
  unfold Qdiv in *; change (/ 2) with (1 # 2) in *.

Lemma cameraFor_range canvas p :
  WIDTH canvas <= world_width ->
  0 <= cameraFor canvas p /\ cameraFor canvas p <= world_width - WIDTH canvas.
Proof.
  intro W. unfold cameraFor. cbv zeta. repeat case_cmp; split; lra.
Qed.

(** X1: when the viewport is no wider than the world, every tick, running
    or over, leaves the camera offset within
    [[0, world.width - WIDTH]]. *)
Theorem camera_in_range canvas dt keys g :
  WIDTH canvas <= world_width ->
  0 <= cameraX (update canvas dt keys g) /\
  cameraX (update canvas dt keys g) <= world_width - WIDTH canvas.
Proof.
  intro W. rewrite update_cameraX. now apply cameraFor_range.
Qed.

(** X2: when the viewport is wider than the world, the second clamp wins:
    every tick leaves the camera at the negative offset
    [world.width - WIDTH], wherever the player is. *)
Theorem camera_wide_viewport canvas dt keys g :
  world_width < WIDTH canvas ->
  cameraX (update canvas dt keys g) = world_width - WIDTH canvas /\
  cameraX (update canvas dt keys g) < 0.
Proof.
  intro W. rewrite update_cameraX. unfold cameraFor. cbv zeta.
  assert (E : forall c, ((if c <? 0 then 0 else c) >? world_width - WIDTH canvas) = true).
  { intro c. apply Qgtb_gt. case_cmp; lra. }
  rewrite E. split; [reflexivity | lra].
Qed.

Lemma cameraFor_onScreen canvas p :
  0 <= p_width p -> p_width p <= WIDTH canvas -> WIDTH canvas <= world_width ->
  playerInBounds p ->
  0 <= p_x p - cameraFor canvas p /\
  p_x p - cameraFor canvas p + p_width p <= WIDTH canvas.
Proof.
  unfold playerInBounds, cameraFor. intros W0 W1 W2 [B0 B1]. cbv zeta.
  repeat case_cmp; halves; split; lra.
Qed.

(** X3: the camera keeps the player on screen: if the player is no wider
    than the viewport, the viewport no wider than the world, and player
    and hazard start within their bounds, then after every tick the sprite
    [drawPlayer] draws lies within [[0, WIDTH]] horizontally. *)
Theorem player_stays_on_screen canvas images dt keys g :
  0 <= p_width (player g) ->
  p_width (player g) <= WIDTH canvas ->
  WIDTH canvas <= world_width ->
  roomy g -> inBounds g ->
  Forall (onScreen canvas) (drawPlayer images (update canvas dt keys g)).
Proof.
  intros W0 W1 W2 R B.
  destruct (update_bounds canvas dt keys g R B) as ([Rp _] & [Bp _]).
  unfold drawPlayer. destruct (negb (images "playerIdle"%string)); [constructor |].
  constructor; [| constructor].
  unfold onScreen. cbn [s_x s_width]. rewrite update_cameraX.
  set (p := player (update canvas dt keys g)) in *.
  assert (Ew : p_width p = p_width (player g)).
  { subst p. destruct (gameOver g) eqn:E.
    - destruct (update_over_fields canvas dt keys g E) as (P & _).
      cbv zeta in P. now rewrite P.
    - rewrite update_player, (updatePlayer_running _ _ _ _ E).
      apply (movePlayer_bounds canvas dt keys (player g)).
      destruct R as [Rg _]. exact Rg. }
  apply cameraFor_onScreen; rewrite ?Ew; assumption.
Qed.

(** ** Player physics *)

Lemma set_jump_false_keys keys :
  left (set_jump false keys) = left keys /\
  right (set_jump false keys) = right keys /\
  jump (set_jump false keys) = false.
Proof. repeat split. Qed.

(** X4: there is no double jump: for an airborne player the jump intent
    changes nothing about the tick. *)
Theorem no_double_jump canvas dt keys p :
  p_onGround p = false ->
  movePlayer canvas dt keys p = movePlayer canvas dt (set_jump false keys) p.
Proof.
  intro A. rewrite !movePlayer_spec. cbv zeta.
  destruct (set_jump_false_keys keys) as (L & R & J).
  rewrite L, R, J, A, andb_false_r. reflexivity.
Qed.

Lemma movePlayer_floor canvas dt keys p :
  p_y (movePlayer canvas dt keys p) <= floorY canvas p /\
  p_height (movePlayer canvas dt keys p) = p_height p.
Proof.
  rewrite movePlayer_spec. fields. split; [| reflexivity].
  case_cmp; lra.
Qed.

Lemma update_player_cases canvas dt keys g :
  player (update canvas dt keys g) =
  if gameOver g then player g else movePlayer canvas dt keys (player g).
Proof.
  rewrite update_player. unfold updatePlayer. now destruct (gameOver g).
Qed.

(** X5: the floor is solid: a player at or above the floor line stays at
    or above it through any run of ticks (any [dt], any keys), and a
    running tick puts the player there whatever the start. *)
Theorem player_never_below_floor canvas g :
  p_y (player g) <= floorY canvas (player g) ->
  forall ticks,
    p_y (player (run canvas ticks g)) <= floorY canvas (player (run canvas ticks g)).
Proof.
  intros F ticks. revert g F.
  induction ticks as [| t ticks IH]; intros g F; [exact F |].
  rewrite run_cons. apply IH.
  rewrite update_player_cases. destruct (gameOver g); [exact F |].
  destruct (movePlayer_floor canvas (fst t) (snd t) (player g)) as (Y & H).
  unfold floorY in *. rewrite H. exact Y.
Qed.

Lemma movePlayer_grounded canvas dt keys p :
  grounded canvas p -> grounded canvas (movePlayer canvas dt keys p).
Proof.
  unfold grounded. intros G. rewrite movePlayer_spec. fields. unfold floorY in *.
  fields.
  destruct (p_y p + ((if jump keys && p_onGround p then p_jumpForce p else p_vy p)
                     + gravity * dt) * dt >? HEIGHT canvas - groundHeight - p_height p) eqn:L.
  - intros _. split; reflexivity.
  - destruct (jump keys && p_onGround p) eqn:J; [discriminate |].
    intro O. destruct (G O) as (Gy & Gv).
    apply Qgtb_le in L. unfold gravity in *.
    assert (D : dt == 0) by nra.
    split; rewrite ?D; lra.
Qed.

(** X6: whenever [onGround] is set the player rests exactly on the floor
    line with zero vertical velocity; this holds through any run of
    ticks. *)
Theorem grounded_means_resting canvas g :
  grounded canvas (player g) ->
  forall ticks, grounded canvas (player (run canvas ticks g)).
Proof.
  intros G ticks. revert g G.
  induction ticks as [| t ticks IH]; intros g G; [exact G |].
  rewrite run_cons. apply IH.
  rewrite update_player_cases. destruct (gameOver g); [exact G |].
  now apply movePlayer_grounded.
Qed.

(** X7: a resting player is left where it stands: grounded, within the
    world, with no key held, a running tick of any [dt] changes neither
    position, keeps both velocities at zero and keeps [onGround] set. *)
Theorem idle_player_stays_put canvas dt g :
  gameOver g = false ->
  p_onGround (player g) = true ->
  grounded canvas (player g) ->
  p_width (player g) <= world_width -> playerInBounds (player g) ->
  let p' := player (update canvas dt (mkKeys false false false) g) in
  p_x p' == p_x (player g) /\ p_y p' == p_y (player g) /\
  p_vx p' = 0 /\ p_vy p' == 0 /\ p_onGround p' = true.
Proof.
  intros E O G W [B0 B1] p'. subst p'.
  rewrite update_player_cases, E, movePlayer_spec. fields.
  destruct (G O) as (Gy & Gv). unfold floorY in *. rewrite O.
  assert (X1 : (p_x (player g) + 0 * dt <? 0) = false) by (apply Qltb_ge; lra).
  rewrite X1.
  assert (X2 : (p_x (player g) + 0 * dt + p_width (player g) >? world_width) = false)
    by (apply Qgtb_le; lra).
  rewrite X2.
  case_cmp.
  - repeat split; lra.
  - unfold gravity in *. assert (D : dt == 0) by nra.
    repeat split; rewrite ?D; lra.
Qed.

(** ** Hazard patrol *)

Lemma update_hrDrone canvas dt keys g :
  hrDrone (update canvas dt keys g) =
  if gameOver g then hrDrone g else patrol dt (hrDrone g).
Proof.
  destruct (gameOver g) eqn:E.
  - now destruct (update_over_fields canvas dt keys g E) as (_ & D & _).
  - destruct (update_running_core canvas dt keys g E) as (_ & D & _).
    cbv zeta in D. rewrite D.
    destruct (contactDamage_spec (atCheck canvas dt keys g)) as (_ & D' & _).
    cbv zeta in D'. rewrite D'. reflexivity.
Qed.

(** X8: one patrol step, when the range is at least as wide as the
    hazard: a move that would pass the left bound ends on [leftBound] with
    the velocity negated, one that would pass the right bound ends on
    [rightBound - width] with the velocity negated, and any other move is
    taken as is with the velocity kept. *)
Theorem patrol_bounce dt d :
  d_width d <= rightBound d - leftBound d ->
  let x1 := d_x d + d_vx d * dt in
  (x1 < leftBound d ->
     d_x (patrol dt d) = leftBound d /\ d_vx (patrol dt d) = d_vx d * -1) /\
  (rightBound d - d_width d < x1 ->
     d_x (patrol dt d) = rightBound d - d_width d /\
     d_vx (patrol dt d) = d_vx d * -1) /\
  (leftBound d <= x1 -> x1 <= rightBound d - d_width d ->
     d_x (patrol dt d) = x1 /\ d_vx (patrol dt d) = d_vx d).
Proof.
  intros W x1. subst x1. rewrite patrol_spec. fields.
  repeat split.
  - apply Qltb_lt in H. rewrite H.
    assert (F : (leftBound d + d_width d >? rightBound d) = false)
      by (apply Qgtb_le; lra).
    now rewrite F.
  - apply Qltb_lt in H. rewrite H.
    assert (F : (leftBound d + d_width d >? rightBound d) = false)
      by (apply Qgtb_le; lra).
    now rewrite F.
  - assert (F : (d_x d + d_vx d * dt <? leftBound d) = false)
      by (apply Qltb_ge; lra).
    rewrite F. assert (T : (d_x d + d_vx d * dt + d_width d >? rightBound d) = true)
      by (apply Qgtb_gt; lra).
    now rewrite T.
  - assert (F : (d_x d + d_vx d * dt <? leftBound d) = false)
      by (apply Qltb_ge; lra).
    rewrite F. assert (T : (d_x d + d_vx d * dt + d_width d >? rightBound d) = true)
      by (apply Qgtb_gt; lra).
    now rewrite T.
  - assert (F : (d_x d + d_vx d * dt <? leftBound d) = false)
      by (apply Qltb_ge; lra).
    rewrite F. assert (T : (d_x d + d_vx d * dt + d_width d >? rightBound d) = false)
      by (apply Qgtb_le; lra).
    now rewrite T.
  - assert (F : (d_x d + d_vx d * dt <? leftBound d) = false)
      by (apply Qltb_ge; lra).
    rewrite F. assert (T : (d_x d + d_vx d * dt + d_width d >? rightBound d) = false)
      by (apply Qgtb_le; lra).
    now rewrite T.
Qed.

Lemma sameSpeed_trans a b c : sameSpeed a b -> sameSpeed b c -> sameSpeed a c.
Proof. unfold sameSpeed. intros [H1 | H1] [H2 | H2]; [left | right | right | left]; lra. Qed.

Lemma patrol_keeps dt d :
  sameSpeed (d_vx (patrol dt d)) (d_vx d) /\
  d_y (patrol dt d) = d_y d /\ d_width (patrol dt d) = d_width d /\
  d_height (patrol dt d) = d_height d /\
  leftBound (patrol dt d) = leftBound d /\ rightBound (patrol dt d) = rightBound d.
Proof.
  rewrite patrol_spec. fields. split; [| repeat split].
  unfold sameSpeed. repeat break_if; [left | right | right | left]; lra.
Qed.

(** X9: the hazard only ever moves sideways and only ever reverses: through
    any run of ticks its altitude, size and patrol bounds are untouched and
    its velocity keeps its magnitude. *)
Theorem hazard_keeps_speed_and_altitude canvas ticks g :
  let d := hrDrone g in
  let d' := hrDrone (run canvas ticks g) in
  sameSpeed (d_vx d') (d_vx d) /\
  d_y d' = d_y d /\ d_width d' = d_width d /\ d_height d' = d_height d /\
  leftBound d' = leftBound d /\ rightBound d' = rightBound d.
Proof.
  revert g. induction ticks as [| t ticks IH]; intro g.
  - cbv zeta. cbn [run fold_left]. repeat split. now left.
  - cbv zeta. rewrite run_cons.
    destruct (IH (update canvas (fst t) (snd t) g)) as (S & Y & W & H & L & R).
    cbv zeta in S, Y, W, H, L, R.
    assert (K : sameSpeed (d_vx (hrDrone (update canvas (fst t) (snd t) g))) (d_vx (hrDrone g)) /\
                d_y (hrDrone (update canvas (fst t) (snd t) g)) = d_y (hrDrone g) /\
                d_width (hrDrone (update canvas (fst t) (snd t) g)) = d_width (hrDrone g) /\
                d_height (hrDrone (update canvas (fst t) (snd t) g)) = d_height (hrDrone g) /\
                leftBound (hrDrone (update canvas (fst t) (snd t) g)) = leftBound (hrDrone g) /\
                rightBound (hrDrone (update canvas (fst t) (snd t) g)) = rightBound (hrDrone g)).
    { rewrite update_hrDrone. destruct (gameOver g); [| apply patrol_keeps].
      repeat split. now left. }
    destruct K as (S' & Y' & W' & H' & L' & R').
    split; [exact (sameSpeed_trans _ _ _ S S') |].
    repeat split; congruence.
Qed.

(** ** The grace window *)

(** X10: while the grace timer reads positive the hazard cannot hurt: from
    a running state, through any run of ticks each of which starts with
    [invincibleTimer > 0], burnout is unchanged and the game stays running,
    whatever the contact. *)
Theorem grace_window canvas ticks g :
  gameOver g = false ->
  (forall n, (n < List.length ticks)%nat ->
             0 < invincibleTimer (run canvas (firstn n ticks) g)) ->
  burnout (run canvas ticks g) = burnout g /\
  gameOver (run canvas ticks g) = false.
Proof.
  revert g. induction ticks as [| t ticks IH]; intros g E H; [now split |].
  rewrite run_cons.
  assert (T : 0 < invincibleTimer g).
  { apply (H 0%nat). cbn [List.length]. lia. }
  destruct (tick_grace canvas (fst t) (snd t) g E T) as (B1 & G1 & _).
  destruct (IH _ G1) as (B2 & G2).
  - intros n Hn. specialize (H (S n)). cbn [List.length firstn] in H.
    rewrite run_cons in H. apply H. lia.
  - split; [congruence | exact G2].
Qed.

(** ** Pickups and counters *)

Lemma fires_collected p m : fires p m = true -> collected m = false.
Proof.
  unfold fires. intro F. apply andb_true_iff in F. destruct F as [F _].
  now apply negb_true_iff in F.
Qed.

Lemma collect_keeps p m : keeps m (collect p m).
Proof.
  unfold keeps, collect. destruct (fires p m) eqn:F; cbn; repeat split; trivial.
Qed.

Lemma keeps_refl m : keeps m m.
Proof. unfold keeps. repeat split; trivial. Qed.

Lemma keeps_trans a b c : keeps a b -> keeps b c -> keeps a c.
Proof.
  unfold keeps. intros (X1 & Y1 & W1 & H1 & C1) (X2 & Y2 & W2 & H2 & C2).
  repeat split; try congruence. auto.
Qed.

Lemma collect_collected p m : collected m = true -> collect p m = m.
Proof.
  intro C. unfold collect, fires. rewrite C. reflexivity.
Qed.

Lemma collectedCount_collect p ms :
  collectedCount (map (collect p) ms) = (collectedCount ms + hits p ms)%nat.
Proof.
  unfold collectedCount, hits. induction ms as [| m ms IH]; [reflexivity |].
  cbn [map filter]. unfold collect at 1.
  destruct (fires p m) eqn:F.
  - rewrite (fires_collected _ _ F). cbn [collected set_collected List.length].
    rewrite IH. lia.
  - destruct (collected m); cbn [List.length]; rewrite IH; lia.
Qed.

(** What a tick does to the pickups and the credits, in either state. *)
Lemma update_pickups_cases canvas dt keys g :
  let p := player (updatePlayer canvas dt keys g) in
  let g' := update canvas dt keys g in
  (gameOver g = true /\ coffee g' = coffee g /\
   moneyPickups g' = moneyPickups g /\ credits g' = credits g) \/
  (gameOver g = false /\ coffee g' = collect p (coffee g) /\
   moneyPickups g' = map (collect p) (moneyPickups g) /\
   credits g' = (credits g + 20 * Z.of_nat (hits p (moneyPickups g)))%Z).
Proof.
  cbv zeta. destruct (gameOver g) eqn:E; [left | right].
  - destruct (update_over_fields canvas dt keys g E) as (_ & _ & C & M & _ & Cr & _).
    cbv zeta in C, M, Cr. tauto.
  - destruct (running_tick_pickups canvas dt keys g E) as (C & M & Cr & _).
    cbv zeta in C, M, Cr. tauto.
Qed.

Lemma run_credits_conserved canvas ticks g :
  let g' := run canvas ticks g in
  (credits g' - 20 * Z.of_nat (collectedCount (moneyPickups g')) =
   credits g - 20 * Z.of_nat (collectedCount (moneyPickups g)))%Z /\
  List.length (moneyPickups g') = List.length (moneyPickups g) /\
  (collectedCount (moneyPickups g) <= collectedCount (moneyPickups g'))%nat.
Proof.
  revert g. induction ticks as [| t ticks IH]; intro g; [now repeat split |].
  cbv zeta. rewrite run_cons.
  destruct (IH (update canvas (fst t) (snd t) g)) as (C & L & N).
  cbv zeta in C, L, N. rewrite C, L. clear C L IH.
  destruct (update_pickups_cases canvas (fst t) (snd t) g)
    as [(_ & _ & M & Cr) | (_ & _ & M & Cr)]; cbv zeta in M, Cr;
    rewrite M, Cr in *.
  - now repeat split.
  - rewrite collectedCount_collect, length_map in *.
    split; [lia | split; [reflexivity | lia]].
Qed.

(** X11: credits are conserved against the pickups: through any run of
    ticks [credits] grows by exactly 20 for each credit pickup collected
    during the run; the number of collected pickups never goes down and
    the list never changes length. *)
Theorem credits_conserved canvas ticks g :
  let g' := run canvas ticks g in
  let before := collectedCount (moneyPickups g) in
  let after := collectedCount (moneyPickups g') in
  (before <= after)%nat /\
  credits g' = (credits g + 20 * Z.of_nat (after - before))%Z /\
  List.length (moneyPickups g') = List.length (moneyPickups g).
Proof.
  destruct (run_credits_conserved canvas ticks g) as (C & L & N).
  cbv zeta in *. split; [exact N | split; [lia | exact L]].
Qed.

Lemma collectedCount_le ms : (collectedCount ms <= List.length ms)%nat.
Proof. unfold collectedCount. apply filter_length_le. Qed.

(** X12: in the game as it starts (three credit pickups of 20, rent 120)
    the rent is out of reach: whatever the run of ticks, [credits] is 20
    times the number of collected credit pickups, hence at most 60. *)
Theorem rent_out_of_reach canvas ticks :
  let g' := run canvas ticks (initialGame canvas) in
  credits g' = (20 * Z.of_nat (collectedCount (moneyPickups g')))%Z /\
  (credits g' <= 60)%Z /\ (credits g' < rent)%Z.
Proof.
  destruct (run_credits_conserved canvas ticks (initialGame canvas)) as (C & L & _).
  cbv zeta in *.
  change (credits (initialGame canvas)) with 0%Z in C.
  change (collectedCount (moneyPickups (initialGame canvas))) with 0%nat in C.
  change (List.length (moneyPickups (initialGame canvas))) with 3%nat in L.
  pose proof (collectedCount_le (moneyPickups (run canvas ticks (initialGame canvas)))) as B.
  rewrite L in B. unfold rent. lia.
Qed.

Lemma Forall2_keeps_map p ms : Forall2 keeps ms (map (collect p) ms).
Proof.
  induction ms as [| m ms IH]; cbn; constructor; [apply collect_keeps | exact IH].
Qed.

Lemma Forall2_keeps_refl ms : Forall2 keeps ms ms.
Proof. induction ms; constructor; [apply keeps_refl | assumption]. Qed.

Lemma Forall2_keeps_trans a b c :
  Forall2 keeps a b -> Forall2 keeps b c -> Forall2 keeps a c.
Proof.
  intro H. revert c. induction H as [| x y a b K _ IH]; intros c H2;
    inversion H2; subst; constructor; [eapply keeps_trans; eassumption | auto].
Qed.

Lemma run_pickups_keep canvas ticks g :
  keeps (coffee g) (coffee (run canvas ticks g)) /\
  Forall2 keeps (moneyPickups g) (moneyPickups (run canvas ticks g)).
Proof.
  revert g. induction ticks as [| t ticks IH]; intro g.
  - split; [apply keeps_refl | apply Forall2_keeps_refl].
  - rewrite run_cons.
    destruct (IH (update canvas (fst t) (snd t) g)) as (C & M).
    assert (K : keeps (coffee g) (coffee (update canvas (fst t) (snd t) g)) /\
                Forall2 keeps (moneyPickups g)
                        (moneyPickups (update canvas (fst t) (snd t) g))).
    { destruct (update_pickups_cases canvas (fst t) (snd t) g)
        as [(_ & C' & M' & _) | (_ & C' & M' & _)];
        cbv zeta in C', M'; rewrite C', M'.
      - split; [apply keeps_refl | apply Forall2_keeps_refl].
      - split; [apply collect_keeps | apply Forall2_keeps_map]. }
    destruct K as (C' & M').
    split; [eapply keeps_trans | eapply Forall2_keeps_trans]; eassumption.
Qed.

(** X13: pickups are one-shot and fixed in place: through any run of
    ticks the coffee and every credit pickup, position by position in the
    list, keep their box, and one that is collected stays collected; a
    coffee once collected is never drawn again. *)
Theorem pickups_one_shot canvas ticks g :
  keeps (coffee g) (coffee (run canvas ticks g)) /\
  Forall2 keeps (moneyPickups g) (moneyPickups (run canvas ticks g)) /\
  (collected (coffee g) = true ->
     forall images, drawCoffee images (run canvas ticks g) = []).
Proof.
  destruct (run_pickups_keep canvas ticks g) as (C & M).
  split; [exact C | split; [exact M |]].
  intros Hc images. unfold drawCoffee.
  destruct C as (_ & _ & _ & _ & K). now rewrite (K Hc).
Qed.

Lemma update_burnout_step canvas dt keys g :
  burnoutConsistent g ->
  (burnout g <= burnout (update canvas dt keys g) <= burnout g + 25)%Z.
Proof.
  unfold burnoutConsistent. intro I. destruct (gameOver g) eqn:E.
  - destruct (update_over_fields canvas dt keys g E) as (_ & _ & _ & _ & B & _).
    cbv zeta in B. rewrite B. lia.
  - destruct (tick_damage canvas dt keys g E) as (B & _).
    cbv zeta in B. rewrite B.
    destruct (contact canvas dt keys g && (invincibleTimer g <=? 0)); [| lia].
    destruct (burnout g + 25 >=? burnoutMax)%Z eqn:F; lia.
Qed.

(** X14: the counters only go up: from a state where burnout and game
    state agree, through any run of ticks neither [burnout] nor [credits]
    decreases, and burnout grows by at most 25 per tick. *)
Theorem counters_monotone canvas ticks g :
  burnoutConsistent g ->
  let g' := run canvas ticks g in
  (burnout g <= burnout g' <= burnout g + 25 * Z.of_nat (List.length ticks))%Z /\
  (credits g <= credits g')%Z.
Proof.
  revert g. induction ticks as [| t ticks IH]; intros g I.
  - cbn. lia.
  - cbv zeta. rewrite run_cons.
    pose proof (update_burnout_step canvas (fst t) (snd t) g I) as B.
    pose proof (update_burnoutConsistent canvas (fst t) (snd t) g I) as I'.
    destruct (IH _ I') as (B' & C'). cbv zeta in B', C'.
    assert (C : (credits g <= credits (update canvas (fst t) (snd t) g))%Z).
    { destruct (update_pickups_cases canvas (fst t) (snd t) g)
        as [(_ & _ & _ & Cr) | (_ & _ & _ & Cr)]; cbv zeta in Cr; rewrite Cr; lia. }
    cbn [List.length]. lia.
Qed.

Lemma run_burnout_range canvas ticks g :
  burnoutConsistent g -> (0 <= burnout g)%Z ->
  (0 <= burnout (run canvas ticks g) <= burnoutMax)%Z.
Proof.
  revert g. induction ticks as [| t ticks IH]; intros g I P.
  - cbn [run fold_left]. unfold burnoutConsistent in I.
    destruct (gameOver g); unfold burnoutMax in *; lia.
  - rewrite run_cons. apply IH.
    + now apply update_burnoutConsistent.
    + pose proof (update_burnout_step canvas (fst t) (snd t) g I). lia.
Qed.

(** X26: the burnout bar never leaves its frame: from a state where
    burnout is non-negative and agrees with the game state, after any run
    of ticks the filled width [drawUI] computes lies within
    [[0, 200]], and it is the full 200 exactly when the game is over. *)
Theorem burnout_bar_in_frame canvas ticks g :
  burnoutConsistent g -> (0 <= burnout g)%Z ->
  let g' := run canvas ticks g in
  0 <= burnoutFill g' /\ burnoutFill g' <= 200 /\
  (burnoutFill g' == 200 <-> gameOver g' = true).
Proof.
  intros I P g'. subst g'.
  pose proof (run_burnout_range canvas ticks g I P) as [B0 B1].
  pose proof (run_burnoutConsistent canvas ticks g I) as I'.
  unfold burnoutConsistent in I'.
  set (g' := run canvas ticks g) in *. unfold burnoutFill. cbv zeta.
  change (inject_Z burnoutMax) with 100. unfold Qdiv. change (/ 100) with (1 # 100).
  rewrite Zle_Qle in B0, B1. change (inject_Z 0) with 0 in B0.
  change (inject_Z burnoutMax) with 100 in B1.
  split; [lra | split; [lra |]].
  destruct (gameOver g').
  - rewrite I'. change (inject_Z burnoutMax) with 100. split; [reflexivity | intros _; lra].
  - split; [| discriminate]. intro E.
    rewrite Zlt_Qlt in I'. change (inject_Z burnoutMax) with 100 in I'. lra.
Qed.

(** X27: the hazard never hurts without touching: on a running tick whose
    collision check finds no overlap, burnout is unchanged and the game
    stays running, whatever the grace timer reads. *)
Theorem no_contact_no_damage canvas dt keys g :
  gameOver g = false ->
  contact canvas dt keys g = false ->
  burnout (update canvas dt keys g) = burnout g /\
  gameOver (update canvas dt keys g) = false.
Proof.
  intros E C. destruct (tick_damage canvas dt keys g E) as (B & G & _).
  cbv zeta in B, G. rewrite B, G, C. split; reflexivity.
Qed.

(** ** Entering GameOver *)

Lemma contactDamage_over g :
  gameOver g = false ->
  gameOver (contactDamage g) = true ->
  gameOverReason (contactDamage g) = burnoutReason /\
  burnout (contactDamage g) = burnoutMax /\
  exists older,
    messages (contactDamage g) =
      older ++ [mkMessage "Game over. Refresh the page to try again." 7].
Proof.
  unfold contactDamage, triggerGameOver, showMessage. intros E.
  repeat break_if; fields; intro O; try congruence.
  repeat split. eexists. reflexivity.
Qed.

Lemma update_over_reason canvas dt keys g :
  gameOver g = true ->
  gameOverReason (update canvas dt keys g) = gameOverReason g.
Proof. intro E. rewrite (update_over _ _ _ _ E). reflexivity. Qed.

Lemma updateHRDrone_atCheck canvas dt keys g :
  gameOver g = false ->
  updateHRDrone dt (updatePlayer canvas dt keys g) =
  contactDamage (atCheck canvas dt keys g).
Proof.
  intro E. unfold updateHRDrone, atCheck.
  destruct (updatePlayer_frame canvas dt keys g) as (_ & _ & Hd & _ & _ & _ & _ & Hg & _).
  cbv zeta in Hd, Hg. rewrite Hg, E, Hd. reflexivity.
Qed.

Lemma update_running_reason canvas dt keys g :
  gameOver g = false ->
  gameOver (update canvas dt keys g) = true ->
  gameOverReason (update canvas dt keys g) = burnoutReason /\
  burnout (update canvas dt keys g) = burnoutMax.
Proof.
  intros E. rewrite (update_running _ _ _ _ E), (updateHRDrone_atCheck _ _ _ _ E).
  set (h := contactDamage (atCheck canvas dt keys g)).
  unfold updateMessages, updateCamera. fields. rewrite updateTimers_spec. fields.
  destruct (updatePickups_frame dt h) as (_ & _ & B & _ & G & R & _).
  cbv zeta in B, G, R. rewrite B, G, R. intro O.
  assert (E' : gameOver (atCheck canvas dt keys g) = false).
  { unfold atCheck. fields.
    destruct (updatePlayer_frame canvas dt keys g) as (_ & _ & _ & _ & _ & _ & _ & Hg & _).
    cbv zeta in Hg. now rewrite Hg. }
  destruct (contactDamage_over _ E' O) as (R' & B' & _). now split.
Qed.

(** X15: however a run started from a running state comes to be over, it
    is over for burnout: [gameOverReason] is the burnout sentence and
    [burnout] stands at [burnoutMax]. *)
Theorem game_over_is_burnout canvas ticks g :
  gameOver g = false ->
  gameOver (run canvas ticks g) = true ->
  gameOverReason (run canvas ticks g) = burnoutReason /\
  burnout (run canvas ticks g) = burnoutMax.
Proof.
  intro E.
  assert (K : gameOver g = true ->
              gameOverReason g = burnoutReason /\ burnout g = burnoutMax)
    by congruence.
  clear E. revert g K. induction ticks as [| t ticks IH]; intros g K O.
  - now apply K.
  - rewrite run_cons in *. apply IH; [| exact O].
    intro O'. destruct (gameOver g) eqn:E.
    + destruct (K eq_refl) as (R & B).
      rewrite (update_over_reason _ _ _ _ E).
      destruct (update_over_fields canvas (fst t) (snd t) g E) as (_ & _ & _ & _ & B' & _).
      cbv zeta in B'. rewrite B'. now split.
    + now apply update_running_reason.
Qed.

(** ** The message feed as drawn *)

Lemma update_messages_alive canvas dt keys g :
  Forall (fun m => 0 < time m) (messages (update canvas dt keys g)).
Proof.
  unfold update. rewrite messages_updateMessages. unfold decay.
  apply Forall_forall. intros m Hin. apply filter_In in Hin.
  destruct Hin as [_ A]. unfold alive in A. apply negb_true_iff in A.
  now apply Qleb_gt.
Qed.

Lemma Math_min_spec a b :
  (b < a -> Math_min a b = b) /\ (a <= b -> Math_min a b = a).
Proof.
  unfold Math_min. split; intro H.
  - apply Qltb_lt in H. now rewrite H.
  - apply Qltb_ge in H. now rewrite H.
Qed.

Lemma messageRows_spec msgY msgs :
  Forall (fun m => 0 < time m) msgs ->
  Forall2 (fun m r =>
             fst (fst r) = text m /\
             0 < snd (fst r) /\ snd (fst r) <= 1 /\
             (2 <= time m -> snd (fst r) = 1))
          msgs (messageRows msgY msgs) /\
  forall i r, nth_error (messageRows msgY msgs) i = Some r ->
              snd r == msgY + 30 * inject_Z (Z.of_nat i).
Proof.
  intro H. revert msgY. induction H as [| m msgs Hm _ IH]; intro msgY.
  - split; [constructor |]. intros [| i] r E; discriminate.
  - destruct (IH (msgY + 30)) as (A & B). cbn [messageRows]. split.
    + constructor; [| exact A]. cbn [fst snd].
      destruct (Math_min_spec 1 (time m / 2)) as (M1 & M2).
      split; [reflexivity |].
      destruct (Qlt_le_dec (time m / 2) 1) as [L | L].
      * rewrite (M1 L). halves.
        split; [lra | split; [lra | intro T; lra]].
      * rewrite (M2 L).
        split; [lra | split; [lra | intros _; reflexivity]].
    + intros [| i] r E.
      * injection E as <-. cbn [snd].
        change (inject_Z (Z.of_nat 0)) with 0. lra.
      * cbn [nth_error] in E. rewrite (B i r E).
        rewrite Nat2Z.inj_succ. unfold Z.succ. rewrite inject_Z_plus.
        change (inject_Z 1) with 1. lra.
Qed.

(** X16: what [drawUI] shows of the feed after a tick: one row per
    message, in feed order, 30 pixels apart from baseline 90, each with an
    alpha in (0, 1], and fully opaque as long as two seconds or more
    remain: pruned messages are never drawn and no row is invisible. *)
Theorem drawn_messages_visible canvas dt keys g :
  let g' := update canvas dt keys g in
  Forall2 (fun m r =>
             fst (fst r) = text m /\
             0 < snd (fst r) /\ snd (fst r) <= 1 /\
             (2 <= time m -> snd (fst r) = 1))
          (messages g') (drawMessages g') /\
  forall i r, nth_error (drawMessages g') i = Some r ->
              snd r == 90 + 30 * inject_Z (Z.of_nat i).
Proof.
  cbv zeta. unfold drawMessages.
  apply messageRows_spec, update_messages_alive.
Qed.

(** ** Credits on the map and in the wallet *)

Lemma drawMoneyLoop_length cam ms :
  (List.length (drawMoneyLoop cam ms) + collectedCount ms = List.length ms)%nat.
Proof.
  unfold collectedCount. induction ms as [| m ms IH]; [reflexivity |].
  cbn [drawMoneyLoop filter]. destruct (collected m); cbn [List.length]; lia.
Qed.

(** X17: with the credit image loaded, every credit pickup is either drawn
    or paid out: through any run of ticks, [credits] plus 20 per credit
    sprite that [drawMoney] draws is constant. *)
Theorem credits_drawn_or_banked canvas images ticks g :
  images "credit"%string = true ->
  let g' := run canvas ticks g in
  (credits g' + 20 * Z.of_nat (List.length (drawMoney images g')) =
   credits g + 20 * Z.of_nat (List.length (drawMoney images g)))%Z.
Proof.
  intros I g'. subst g'. unfold drawMoney. rewrite I. cbn [negb].
  destruct (run_credits_conserved canvas ticks g) as (C & L & _). cbv zeta in C, L.
  pose proof (drawMoneyLoop_length (cameraX (run canvas ticks g))
                (moneyPickups (run canvas ticks g))) as D1.
  pose proof (drawMoneyLoop_length (cameraX g) (moneyPickups g)) as D2.
  lia.
Qed.

(** ** The frame loop *)








(** ** Input handlers *)

(** The two listeners, by the intent a code is bound to. *)
Lemma key_handlers_spec code keys :
  keydown code keys =
    match intentOf code with
    | Some i => setAction (actionName i) true keys
    | None => keys
    end /\
  keyup code keys =
    match intentOf code with
    | Some i => setAction (actionName i) false keys
    | None => keys
    end.
Proof.
  unfold keydown, keyup, intentOf.
  destruct (code =? "ArrowLeft")%string eqn:E1;
    [apply String.eqb_eq in E1; subst code; split; reflexivity |].
  destruct (code =? "KeyA")%string eqn:E2;
    [apply String.eqb_eq in E2; subst code; split; reflexivity |].
  destruct (code =? "ArrowRight")%string eqn:E3;
    [apply String.eqb_eq in E3; subst code; split; reflexivity |].
  destruct (code =? "KeyD")%string eqn:E4;
    [apply String.eqb_eq in E4; subst code; split; reflexivity |].
  destruct (code =? "ArrowUp")%string eqn:E5;
    [apply String.eqb_eq in E5; subst code; split; reflexivity |].
  destruct (code =? "Space")%string eqn:E6;
    [apply String.eqb_eq in E6; subst code; split; reflexivity |].
  destruct (code =? "KeyW")%string eqn:E7;
    [apply String.eqb_eq in E7; subst code; split; reflexivity |].
  split; reflexivity.
Qed.

Lemma getIntent_setAction i v keys :
  getIntent i (setAction (actionName i) v keys) = v.
Proof. destruct i; reflexivity. Qed.

(** X20: the key listeners write one intent each and nothing else: a bound
    code sets (keydown) or clears (keyup) exactly the intent it is bound
    to, as the touch button of that name does through [setAction]; any
    other code leaves the keys as they are. *)
Theorem key_handlers_by_intent code keys :
  (keydown code keys =
     match intentOf code with
     | Some i => setAction (actionName i) true keys
     | None => keys
     end) /\
  (keyup code keys =
     match intentOf code with
     | Some i => setAction (actionName i) false keys
     | None => keys
     end) /\
  (forall i, intentOf code = Some i ->
     getIntent i (keydown code keys) = true /\
     getIntent i (keyup code keys) = false /\
     forall j, j <> i ->
       getIntent j (keydown code keys) = getIntent j keys /\
       getIntent j (keyup code keys) = getIntent j keys).
Proof.
  destruct (key_handlers_spec code keys) as (D & U).
  split; [exact D | split; [exact U |]].
  intros i I. rewrite D, U, I.
  split; [apply getIntent_setAction | split; [apply getIntent_setAction |]].
  intros j N. destruct i, j; try congruence; split; reflexivity.
Qed.

(** X21: key aliases are not counted: with two codes bound to the same
    intent both held, releasing either one clears the intent although the
    other is still down. *)
Theorem releasing_one_alias_clears_intent c1 c2 i keys :
  intentOf c1 = Some i -> intentOf c2 = Some i ->
  getIntent i (keydown c2 (keydown c1 keys)) = true /\
  getIntent i (keyup c1 (keydown c2 (keydown c1 keys))) = false.
Proof.
  intros I1 I2.
  destruct (key_handlers_spec c1 (keydown c2 (keydown c1 keys))) as (_ & U).
  destruct (key_handlers_spec c2 (keydown c1 keys)) as (D & _).
  rewrite U, D, I1, I2. split; apply getIntent_setAction.
Qed.

(** ** The simplified variant *)

(** X22: on a canvas as wide as the full variant's world the two variants
    move the player identically, in every field: the different order of
    floor snap and horizontal clamp makes no difference. *)
Theorem variants_agree_on_world_wide_canvas canvas dt keys p :
  WIDTH canvas = world_width ->
  Simple.movePlayer canvas dt keys p = movePlayer canvas dt keys p.
Proof.
  intro W. rewrite simple_movePlayer_spec, movePlayer_spec. cbv zeta.
  rewrite W. reflexivity.
Qed.

(** X23: the simplified variant keeps the player on the canvas: whatever
    the state before, one tick leaves [player.x] within
    [[0, WIDTH - player.width]] (for a player no wider than the canvas) and
    [player.y] at or above the floor line. *)
Theorem simple_player_on_canvas canvas dt keys (s : Simple.Game) :
  p_width (Simple.player s) <= WIDTH canvas ->
  let p' := Simple.player (Simple.update canvas dt keys s) in
  0 <= p_x p' /\ p_x p' <= WIDTH canvas - p_width p' /\
  p_y p' <= HEIGHT canvas - Simple.groundHeight - p_height p'.
Proof.
  intros W p'. subst p'.
  rewrite simple_update_player, simple_movePlayer_spec. fields.
  repeat case_cmp; repeat split; lra.
Qed.

Lemma simple_update_coffee canvas dt keys (s : Simple.Game) :
  Simple.coffee (Simple.update canvas dt keys s) =
  collect (Simple.movePlayer canvas dt keys (Simple.player s)) (Simple.coffee s).
Proof. reflexivity. Qed.

(** X24: in the simplified variant too the coffee is one-shot and fixed in
    place: through any run of ticks it keeps its box, and once collected
    it stays collected. *)
Theorem simple_coffee_one_shot canvas ticks (s : Simple.Game) :
  keeps (Simple.coffee s) (Simple.coffee (simpleRun canvas ticks s)).
Proof.
  revert s. induction ticks as [| t ticks IH]; intro s; [apply keeps_refl |].
  change (simpleRun canvas (t :: ticks) s)
    with (simpleRun canvas ticks (Simple.update canvas (fst t) (snd t) s)).
  eapply keeps_trans; [| apply IH].
  rewrite simple_update_coffee. apply collect_keeps.
Qed.

(** ** Ground tiles *)

Lemma inject_Z_succ n : inject_Z (Z.of_nat (S n)) == inject_Z (Z.of_nat n) + 1.
Proof.
  rewrite Nat2Z.inj_succ. unfold Z.succ. rewrite inject_Z_plus. reflexivity.
Qed.

(** With enough fuel the loop has run out of columns, not of fuel: more
    fuel draws the same tiles. *)
Lemma groundTiles_stable fuel fuel' worldX endX tw cam y :
  0 < tw ->
  endX - worldX <= tw * inject_Z (Z.of_nat fuel) ->
  endX - worldX <= tw * inject_Z (Z.of_nat fuel') ->
  groundTiles fuel worldX endX tw cam y = groundTiles fuel' worldX endX tw cam y.
Proof.
  intro T. revert fuel' worldX.
  induction fuel as [| n IH]; intros fuel' worldX F F'.
  - change (inject_Z (Z.of_nat 0)) with 0 in F.
    destruct fuel' as [| n']; [reflexivity |]. cbn [groundTiles].
    assert (C : (worldX <? endX) = false) by (apply Qltb_ge; lra).
    now rewrite C.
  - destruct fuel' as [| n'].
    + change (inject_Z (Z.of_nat 0)) with 0 in F'. cbn [groundTiles].
      assert (C : (worldX <? endX) = false) by (apply Qltb_ge; lra).
      now rewrite C.
    + cbn [groundTiles]. destruct (worldX <? endX); [| reflexivity].
      f_equal. rewrite inject_Z_succ in F, F'. apply IH; lra.
Qed.

Lemma groundTiles_cover fuel worldX endX tw cam y :
  0 < tw ->
  endX - worldX <= tw * inject_Z (Z.of_nat fuel) ->
  forall wx, worldX <= wx -> wx < endX ->
    exists t, In t (groundTiles fuel worldX endX tw cam y) /\ covers t (wx - cam).
Proof.
  intro T. revert worldX. induction fuel as [| n IH]; intros worldX F wx L U.
  - change (inject_Z (Z.of_nat 0)) with 0 in F. lra.
  - cbn [groundTiles].
    assert (C : (worldX <? endX) = true) by (apply Qltb_lt; lra).
    rewrite C.
    destruct (Qlt_le_dec wx (worldX + tw)) as [Here | Next].
    + eexists. split; [left; reflexivity |].
      unfold covers. cbn [s_x s_width]. split; lra.
    + rewrite inject_Z_succ in F.
      destruct (IH (worldX + tw)) with (wx := wx) as (t & I & Cv); try lra.
      exists t. split; [right; exact I | exact Cv].
Qed.

Lemma groundTiles_shape fuel worldX endX tw cam y :
  Forall (fun t => s_key t = "ground"%string /\ s_y t = y /\
                   s_width t = tw /\ s_height t = groundHeight)
         (groundTiles fuel worldX endX tw cam y).
Proof.
  revert worldX. induction fuel as [| n IH]; intro worldX; [constructor |].
  cbn [groundTiles]. destruct (worldX <? endX); constructor; [| apply IH].
  repeat split.
Qed.

Lemma floor_times tw q :
  0 < tw ->
  inject_Z (Qfloor (q / tw)) * tw <= q /\
  q < inject_Z (Qfloor (q / tw)) * tw + tw.
Proof.
  intro T.
  assert (E : q / tw * tw == q) by (field; lra).
  pose proof (Qfloor_le (q / tw)) as L.
  pose proof (Qlt_floor (q / tw)) as U.
  rewrite inject_Z_plus in U. change (inject_Z 1) with 1 in U.
  set (F := inject_Z (Qfloor (q / tw))) in *.
  set (r := q / tw) in *.
  split; nra.
Qed.

(** X25: the ground is drawn without a gap: with the ground image loaded
    (tile width positive) and enough iterations allowed, every screen
    column in [[0, WIDTH)] is covered by a tile that [drawGround] draws;
    all tiles sit on the ground line with the tile's width and the ground
    band's height; and allowing more iterations draws nothing more. *)
Theorem ground_covers_viewport canvas tileWidth fuel g :
  0 < tileWidth ->
  enoughTiles canvas tileWidth fuel ->
  let tiles := drawGround canvas (Some tileWidth) fuel g in
  (forall s, 0 <= s -> s < WIDTH canvas -> exists t, In t tiles /\ covers t s) /\
  Forall (fun t => s_key t = "ground"%string /\
                   s_y t = HEIGHT canvas - groundHeight /\
                   s_width t = tileWidth /\ s_height t = groundHeight) tiles /\
  (forall fuel', enoughTiles canvas tileWidth fuel' ->
     drawGround canvas (Some tileWidth) fuel' g = tiles).
Proof.
  intros T F tiles. subst tiles. unfold enoughTiles in *. unfold drawGround. cbv zeta.
  destruct (floor_times tileWidth (cameraX g) T) as (L & U).
  split; [| split].
  - intros s S0 S1.
    destruct (groundTiles_cover fuel
                (inject_Z (Qfloor (cameraX g / tileWidth)) * tileWidth)
                (cameraX g + WIDTH canvas) tileWidth (cameraX g)
                (HEIGHT canvas - groundHeight) T)
      with (wx := cameraX g + s) as (t & I & (C1 & C2)); try lra.
    exists t. split; [exact I |]. unfold covers. split; lra.
  - apply groundTiles_shape.
  - intros fuel' F'. apply groundTiles_stable; try assumption; lra.
Qed.

(** ** The further properties at sample inputs *)

Import MoreSamples.

Ltac Q_by_computation :=
  repeat match goal with
         | |- _ /\ _ => split
         | |- True => exact I
         | |- Qle _ _ => apply Qle_bool_iff; vm_compute; reflexivity
         | |- Qlt _ _ => apply Qltb_lt; vm_compute; reflexivity
         | |- Qeq _ _ => apply Qeq_bool_iff; vm_compute; reflexivity
         end.

Lemma camera_in_range_witness :
  0 <= cameraX (update canvas 0.016 rightKey start) /\
  cameraX (update canvas 0.016 rightKey start) <= world_width - WIDTH canvas.
Proof. apply camera_in_range. Q_by_computation. Defined.

Lemma camera_wide_viewport_witness :
  let g' := update wideCanvas 0.016 noKeys (initialGame wideCanvas) in
  cameraX g' = world_width - WIDTH wideCanvas /\ cameraX g' < 0.
Proof. apply camera_wide_viewport. Q_by_computation. Defined.

Lemma player_stays_on_screen_witness :
  Forall (onScreen canvas) (drawPlayer allLoaded (update canvas 0.016 rightKey start)).
Proof.
  apply player_stays_on_screen; unfold roomy, inBounds, playerInBounds, droneInBounds;
    Q_by_computation.
Defined.

Lemma no_double_jump_witness :
  movePlayer canvas 0.016 jumpKey airborne =
  movePlayer canvas 0.016 (set_jump false jumpKey) airborne.
Proof. apply no_double_jump. reflexivity. Defined.

Lemma player_never_below_floor_witness :
  let g' := run canvas [(0.016, jumpKey); (0.5, noKeys)] start in
  p_y (player g') <= floorY canvas (player g').
Proof. apply (player_never_below_floor canvas start). Q_by_computation. Defined.

Lemma grounded_means_resting_witness :
  grounded canvas (player (run canvas [(0.016, jumpKey); (0.5, noKeys)] start)).
Proof.
  apply (grounded_means_resting canvas start).
  intros _. Q_by_computation.
Defined.

Lemma idle_player_stays_put_witness :
  let p' := player (update canvas 0.016 noKeys start) in
  p_x p' == 200 /\ p_y p' == p_y (player start) /\
  p_vx p' = 0 /\ p_vy p' == 0 /\ p_onGround p' = true.
Proof.
  apply (idle_player_stays_put canvas 0.016 start).
  - reflexivity.
  - reflexivity.
  - intros _. Q_by_computation.
  - Q_by_computation.
  - unfold playerInBounds. Q_by_computation.
Defined.

Lemma patrol_bounce_witness :
  let d := initialHRDrone canvas in
  d_x (patrol 5 d) = rightBound d - d_width d /\
  d_vx (patrol 5 d) = d_vx d * -1.
Proof.
  intro d.
  apply (proj1 (proj2 (patrol_bounce 5 d ltac:(Q_by_computation)))).
  Q_by_computation.
Defined.

Lemma grace_window_witness :
  let ticks := repeat (0.125, jumpKey) 3 in
  burnout (run canvas ticks firstHit) = burnout firstHit /\
  gameOver (run canvas ticks firstHit) = false.
Proof.
  apply (grace_window canvas (repeat (0.125, jumpKey) 3) firstHit).
  - by_computation.
  - intros [| [| [| n]]] Hn; [Q_by_computation .. | cbn in Hn; lia].
Defined.

(** Just hit, in contact again, and unhurt. *)
Example graced_contact_unhurt :
  burnout firstHit = 25%Z /\ invincibleTimer firstHit == 0.875 /\
  contact canvas 0.125 jumpKey firstHit = true /\
  burnout (update canvas 0.125 jumpKey firstHit) = 25%Z.
Proof. repeat split; by_computation. Qed.

Lemma counters_monotone_witness :
  let ticks := [(0.5, noKeys); (0.5, noKeys)] in
  let g' := run canvas ticks pinned in
  (burnout pinned <= burnout g' <= burnout pinned + 25 * Z.of_nat (List.length ticks))%Z /\
  (credits pinned <= credits g')%Z.
Proof.
  apply (counters_monotone canvas [(0.5, noKeys); (0.5, noKeys)] pinned).
  by_computation.
Defined.

Lemma game_over_is_burnout_witness :
  gameOverReason (run canvas [(0.5, noKeys)] worn) = burnoutReason /\
  burnout (run canvas [(0.5, noKeys)] worn) = burnoutMax.
Proof.
  apply (game_over_is_burnout canvas [(0.5, noKeys)] worn); by_computation.
Defined.

Lemma credits_drawn_or_banked_witness :
  let g' := run canvas [(0.016, rightKey); (1, rightKey)] start in
  (credits g' + 20 * Z.of_nat (List.length (drawMoney allLoaded g')) =
   credits start + 20 * Z.of_nat (List.length (drawMoney allLoaded start)))%Z.
Proof.
  apply (credits_drawn_or_banked canvas allLoaded
           [(0.016, rightKey); (1, rightKey)] start).
  reflexivity.
Defined.


(** Seven seconds after the first frame the greeting is gone; a frame
    earlier it is still there. *)
Example greeting_gone_after_seven_seconds :
  map text (messages (game (frames canvas [(1000, noKeys); (4000, noKeys)] (boot canvas))))
    = [greeting] /\
  messages (game (frames canvas longFrames (boot canvas))) = [].
Proof. split; by_computation. Qed.

Lemma key_handlers_by_intent_witness :
  right (keydown "KeyD" noKeys) = true /\
  right (keyup "KeyD" bothKeys) = false /\
  left (keyup "KeyD" bothKeys) = true.
Proof.
  destruct (key_handlers_by_intent "KeyD" noKeys) as (_ & _ & H1).
  destruct (key_handlers_by_intent "KeyD" bothKeys) as (_ & _ & H2).
  destruct (H1 IRight eq_refl) as (D & _).
  destruct (H2 IRight eq_refl) as (_ & U & O).
  destruct (O ILeft ltac:(discriminate)) as (_ & L).
  split; [exact D | split; [exact U | exact L]].
Defined.

Lemma releasing_one_alias_clears_intent_witness :
  left (keydown "KeyA" (keydown "ArrowLeft" noKeys)) = true /\
  left (keyup "ArrowLeft" (keydown "KeyA" (keydown "ArrowLeft" noKeys))) = false.
Proof.
  exact (releasing_one_alias_clears_intent "ArrowLeft" "KeyA" ILeft noKeys
           eq_refl eq_refl).
Defined.

Lemma variants_agree_on_world_wide_canvas_witness :
  Simple.movePlayer worldCanvas 0.016 jumpKey (player start) =
  movePlayer worldCanvas 0.016 jumpKey (player start).
Proof. apply variants_agree_on_world_wide_canvas. reflexivity. Defined.

Lemma simple_player_on_canvas_witness :
  let p' := Simple.player
              (Simple.update canvas 10 rightKey (Simple.initialGame canvas)) in
  0 <= p_x p' /\ p_x p' <= WIDTH canvas - p_width p' /\
  p_y p' <= HEIGHT canvas - Simple.groundHeight - p_height p'.
Proof.
  apply (simple_player_on_canvas canvas 10 rightKey (Simple.initialGame canvas)).
  Q_by_computation.
Defined.

Lemma ground_covers_viewport_witness :
  let tiles := drawGround canvas (Some 64) 16 (update canvas 0.016 rightKey start) in
  (forall s, 0 <= s -> s < WIDTH canvas -> exists t, In t tiles /\ covers t s) /\
  Forall (fun t => s_key t = "ground"%string /\
                   s_y t = HEIGHT canvas - groundHeight /\
                   s_width t = 64 /\ s_height t = groundHeight) tiles /\
  (forall fuel', enoughTiles canvas 64 fuel' ->
     drawGround canvas (Some 64) fuel' (update canvas 0.016 rightKey start) = tiles).
Proof.
  apply (ground_covers_viewport canvas 64 16 (update canvas 0.016 rightKey start));
    unfold enoughTiles; Q_by_computation.
Defined.

Lemma burnout_bar_in_frame_witness :
  let g' := run canvas [(0.5, noKeys)] worn in
  0 <= burnoutFill g' /\ burnoutFill g' <= 200 /\
  (burnoutFill g' == 200 <-> gameOver g' = true).
Proof.
  apply (burnout_bar_in_frame canvas [(0.5, noKeys)] worn).
  - by_computation.
  - vm_compute. discriminate.
Defined.

Lemma no_contact_no_damage_witness :
  burnout (update canvas 0.016 rightKey start) = burnout start /\
  gameOver (update canvas 0.016 rightKey start) = false.
Proof.
  apply (no_contact_no_damage canvas 0.016 rightKey start); by_computation.
Defined.

Lemma pickups_one_shot_witness :
  let g := set_coffee (set_collected true (coffee nearCoffee)) nearCoffee in
  drawCoffee allLoaded (run canvas [(0.016, rightKey); (1, leftKey)] g) = [].
Proof.
  intro g.
  destruct (pickups_one_shot canvas [(0.016, rightKey); (1, leftKey)] g)
    as (_ & _ & H).
  apply H. reflexivity.
Defined.

(** * Part IV: the message feed in binary64 *)

Module Feed64Facts.

Import PrimFloat Feed64 Feed64Spec.

(** ** The backward splice scan is an order-preserving filter *)





(** ** Messages do not interfere *)










(** With ticks of an eighth of a second, exact in binary64, the message
    goes on the tick that brings the elapsed time to 7. *)
Example message_gone_at_seven_in_eighths :
  let txt := "Coffee acquired: +5 morale (pure placebo)."%string in
  List.length (feed (map Tick (repeat 0.125%float 55)) (showMessage txt [])) = 1%nat /\
  feed (map Tick (repeat 0.125%float 56)) (showMessage txt []) = [].
Proof. split; vm_compute; reflexivity. Qed.

End Feed64Facts.
